(** * AIWrap: reply normalisation of [src/pages/ChatApp.tsx]

    A shallow embedding of [normalizeAIContent] and of the two closures it
    defines, [isCodeLine] and [detectLang], together with the fragment of the
    ECMAScript string and regular-expression semantics they rely on.

    JavaScript strings are sequences of UTF-16 code units; a code unit is a
    number of type [N] and a string is a [list char].  The regular expressions
    of the source have no [u] flag, so they work on code units as well. *)

From Stdlib Require Import String Ascii.
From Stdlib Require SpecFloat.
From Stdlib Require Import List NArith Bool Arith Lia.
Import ListNotations.

Set Implicit Arguments.
Local Open Scope N_scope.

(** ** Code units *)

Definition char := N.
Definition jsstring := list char.

(** A literal of the source, written as a Rocq string. *)
Definition str (s : string) : jsstring :=
  map N_of_ascii (list_ascii_of_string s).

Definition LF : char := 10.
Definition nl : jsstring := [LF].

(** LineTerminator of ECMAScript: LF, CR, LS, PS. *)
Definition is_line_terminator (c : char) : bool :=
  (c =? 10) || (c =? 13) || (c =? 8232) || (c =? 8233).

(** WhiteSpace and LineTerminator of ECMAScript: what [trim] removes and what
    the class escape [\s] matches.  TAB, LF, VT, FF, CR, SP, NBSP, U+1680,
    U+2000..U+200A, LS, PS, U+202F, U+205F, U+3000 and U+FEFF. *)
Definition is_space (c : char) : bool :=
  ((9 <=? c) && (c <=? 13)) || (c =? 32) || (c =? 160) || (c =? 5760)
  || ((8192 <=? c) && (c <=? 8202)) || (c =? 8232) || (c =? 8233)
  || (c =? 8239) || (c =? 8287) || (c =? 12288) || (c =? 65279).

(** The word characters of the assertion [\b]: letters, digits and [_]. *)
Definition is_word (c : char) : bool :=
  ((65 <=? c) && (c <=? 90)) || ((97 <=? c) && (c <=? 122))
  || ((48 <=? c) && (c <=? 57)) || (c =? 95).

(** The atom [.]: every code unit but a line terminator. *)
Definition is_dot (c : char) : bool := negb (is_line_terminator c).

(** Canonicalize of ECMAScript for a pattern without the [u] flag, on the
    code units the patterns of this program compare with: the patterns hold
    ASCII letters only, and a code unit above 127 is never mapped to one
    below 128, so upper-casing the ASCII letters is all that is observable. *)
Definition canon (c : char) : char :=
  if (97 <=? c) && (c <=? 122) then c - 32 else c.

(** ** Strings *)

Fixpoint ltrim (s : jsstring) : jsstring :=
  match s with
  | [] => []
  | c :: s' => if is_space c then ltrim s' else s
  end.

Fixpoint rtrim (s : jsstring) : jsstring :=
  match s with
  | [] => []
  | c :: s' =>
      match rtrim s' with
      | [] => if is_space c then [] else [c]
      | t => c :: t
      end
  end.

(** [String.prototype.trim]. *)
Definition trim (s : jsstring) : jsstring := rtrim (ltrim s).

(** [s.split(sep)] for a separator of one code unit: never an empty array. *)
Fixpoint split (sep : char) (s : jsstring) : list jsstring :=
  match s with
  | [] => [[]]
  | c :: s' =>
      if c =? sep then [] :: split sep s'
      else match split sep s' with
           | l :: ls => (c :: l) :: ls
           | [] => [[c]]
           end
  end.

(** [a.join(sep)]. *)
Fixpoint join (sep : jsstring) (a : list jsstring) : jsstring :=
  match a with
  | [] => []
  | [l] => l
  | l :: a' => l ++ sep ++ join sep a'
  end.

Definition unlines (a : list jsstring) : jsstring := join nl a.

Fixpoint jseqb (s t : jsstring) : bool :=
  match s, t with
  | [], [] => true
  | c :: s', d :: t' => (c =? d) && jseqb s' t'
  | _, _ => false
  end.

(** ** Regular expressions

    The fragment of the pattern syntax the program uses.  Every quantifier of
    the source ([\s*], [\s+], [\s{2,}], [.*]) applies to a one-character atom
    and is greedy and unbounded, which is what [Rep] stands for.  Groups only
    group here (no back-reference, no [$1] in a replacement), so they leave no
    trace in the syntax tree. *)

Inductive regex : Type :=
| Eps : regex
| Chr : char -> regex                       (* a pattern character *)
| Rep : nat -> (char -> bool) -> regex      (* atom{min,} on a class *)
| Seq : regex -> regex -> regex
| Alt : regex -> regex -> regex
| Bol : regex                               (* ^ *)
| Eol : regex                               (* $ *)
| WordB : regex.                            (* \b *)

Fixpoint lit (s : jsstring) : regex :=
  match s with
  | [] => Eps
  | c :: s' => Seq (Chr c) (lit s')
  end.

Fixpoint seqs (rs : list regex) : regex :=
  match rs with
  | [] => Eps
  | [r] => r
  | r :: rs' => Seq r (seqs rs')
  end.

Fixpoint alts (rs : list regex) : regex :=
  match rs with
  | [] => Eps
  | [r] => r
  | r :: rs' => Alt r (alts rs')
  end.

Record flags : Type := Flags { ignoreCase : bool; multiline : bool }.

Definition no_flags : flags := Flags false false.
Definition flag_i : flags := Flags true false.
Definition flag_m : flags := Flags false true.

(** A position in the input: the code units before it, nearest first, and
    the code units from it on. *)
Record state : Type := State { before : jsstring; after : jsstring }.

Definition cont := state -> option state.

Definition char_match (fl : flags) (a c : char) : bool :=
  if ignoreCase fl then canon a =? canon c else a =? c.

Definition at_bol (fl : flags) (x : state) : bool :=
  match before x with
  | [] => true
  | c :: _ => multiline fl && is_line_terminator c
  end.

Definition at_eol (fl : flags) (x : state) : bool :=
  match after x with
  | [] => true
  | c :: _ => multiline fl && is_line_terminator c
  end.

Definition word_at (s : jsstring) : bool :=
  match s with
  | [] => false
  | c :: _ => is_word c
  end.

Definition at_wordb (x : state) : bool :=
  xorb (word_at (before x)) (word_at (after x)).

(** RepeatMatcher on a class, greedy: one more character first, and only
    when that fails the continuation, which needs the minimum reached. *)
Fixpoint rep_class (p : char -> bool) (min : nat) (b a : jsstring) (k : cont)
  : option state :=
  let stop := match min with O => k (State b a) | S _ => None end in
  match a with
  | [] => stop
  | c :: a' =>
      if p c then
        match rep_class p (Nat.pred min) (c :: b) a' k with
        | Some z => Some z
        | None => stop
        end
      else stop
  end.

(** The matcher of ECMAScript in continuation-passing style: [rmatch fl r x k]
    matches [r] at [x] and hands every end position to [k], in the order of
    the backtracking search, until [k] accepts one.  The [i] flag bears on
    pattern characters only: no code unit is canonicalized to a white space or
    to a line terminator, so the classes [\s] and [.] match as without it. *)
Fixpoint rmatch (fl : flags) (r : regex) (x : state) (k : cont) : option state :=
  match r with
  | Eps => k x
  | Chr c =>
      match after x with
      | a :: rest =>
          if char_match fl a c then k (State (a :: before x) rest) else None
      | [] => None
      end
  | Rep min p => rep_class p min (before x) (after x) k
  | Seq r1 r2 => rmatch fl r1 x (fun y => rmatch fl r2 y k)
  | Alt r1 r2 =>
      match rmatch fl r1 x k with
      | Some z => Some z
      | None => rmatch fl r2 x k
      end
  | Bol => if at_bol fl x then k x else None
  | Eol => if at_eol fl x then k x else None
  | WordB => if at_wordb x then k x else None
  end.

(** The search of [RegExpBuiltinExec]: the leftmost start position at which
    the pattern matches, with the end position of that match. *)
Fixpoint exec_from (fl : flags) (r : regex) (b a : jsstring)
  : option (state * state) :=
  match rmatch fl r (State b a) Some with
  | Some y => Some (State b a, y)
  | None =>
      match a with
      | [] => None
      | c :: a' => exec_from fl r (c :: b) a'
      end
  end.

Definition exec (fl : flags) (r : regex) (s : jsstring) : option (state * state) :=
  exec_from fl r [] s.

(** [re.test(s)]. *)
Definition test (fl : flags) (r : regex) (s : jsstring) : bool :=
  match exec fl r s with Some _ => true | None => false end.

(** [s.replace(re, repl)] for a pattern without the [g] flag and a
    replacement text without [$]: the first match only. *)
Definition replace (fl : flags) (r : regex) (repl s : jsstring) : jsstring :=
  match exec fl r s with
  | Some (x, y) => rev (before x) ++ repl ++ after y
  | None => s
  end.

(** [(s.match(re) || []).length] for a pattern with the [g] flag: the matches
    are searched one after the other, each from the end of the one before (one
    code unit further after an empty match).  Every round moves on by one
    code unit at least, so [length s + 1] rounds are enough. *)
Fixpoint count_from (fuel : nat) (fl : flags) (r : regex) (b a : jsstring) : nat :=
  match fuel with
  | O => O
  | S fuel' =>
      match exec_from fl r b a with
      | None => O
      | Some (x, y) =>
          if Nat.eqb (length (after y)) (length (after x)) then
            match after y with
            | [] => 1
            | c :: a' => S (count_from fuel' fl r (c :: before y) a')
            end
          else S (count_from fuel' fl r (before y) (after y))
      end
  end.

Definition match_count (fl : flags) (r : regex) (s : jsstring) : nat :=
  count_from (S (length s)) fl r [] s.

(** ** The program *)

(** [/^Copyhljs\b/i] *)
Definition re_copy_badge : regex :=
  seqs [Bol; lit (str "Copyhljs"); WordB].

(** [/\s+Copyhljs\b.*$/i] *)
Definition re_badge_tail : regex :=
  seqs [Rep 1 is_space; lit (str "Copyhljs"); WordB; Rep 0 is_dot; Eol].

(** The callback of [filter]. *)
Definition keep_line (line : jsstring) : bool :=
  let trimmed := trim line in
  if jseqb trimmed (str "Copy") then false
  else if test flag_i re_copy_badge trimmed then false
  else true.

(** The callback of [map]. *)
Definition strip_badge (line : jsstring) : jsstring :=
  replace flag_i re_badge_tail [] line.

Definition cleanedLines (content : jsstring) : list jsstring :=
  map strip_badge (filter keep_line (split LF content)).

(** [/(;|\{|\}|#include|std::|^\s{2,}|^\s*\/\/|^\s*#|^\s*(g\+\+|\.\/|npm |yarn |pnpm ))/] *)
Definition re_code : regex :=
  alts [ lit (str ";"); lit (str "{"); lit (str "}");
         lit (str "#include"); lit (str "std::");
         seqs [Bol; Rep 2 is_space];
         seqs [Bol; Rep 0 is_space; lit (str "//")];
         seqs [Bol; Rep 0 is_space; lit (str "#")];
         seqs [Bol; Rep 0 is_space;
               alts [lit (str "g++"); lit (str "./"); lit (str "npm ");
                     lit (str "yarn "); lit (str "pnpm ")]] ].

Definition isCodeLine (line : jsstring) : bool :=
  let t := trim line in
  if Nat.eqb (length t) 0 then false
  else test no_flags re_code line.

(** [/#include|std::|int\s+main\s*\(/] *)
Definition re_cpp : regex :=
  alts [ lit (str "#include"); lit (str "std::");
         seqs [lit (str "int"); Rep 1 is_space; lit (str "main");
               Rep 0 is_space; lit (str "(")] ].

(** [/^\s*(g\+\+|\.\/|bash\b)/m] *)
Definition re_bash : regex :=
  seqs [Bol; Rep 0 is_space;
        alts [lit (str "g++"); lit (str "./"); seqs [lit (str "bash"); WordB]]].

(** [/^\s*import\s+|^\s*export\s+|=>/] *)
Definition re_ts : regex :=
  alts [ seqs [Bol; Rep 0 is_space; lit (str "import"); Rep 1 is_space];
         seqs [Bol; Rep 0 is_space; lit (str "export"); Rep 1 is_space];
         lit (str "=>") ].

(** [/^\s*def\s+|^\s*class\s+|:\s*$/] *)
Definition re_python : regex :=
  alts [ seqs [Bol; Rep 0 is_space; lit (str "def"); Rep 1 is_space];
         seqs [Bol; Rep 0 is_space; lit (str "class"); Rep 1 is_space];
         seqs [lit (str ":"); Rep 0 is_space; Eol] ].

Definition detectLang (block : list jsstring) : option jsstring :=
  let text := join nl block in
  if test no_flags re_cpp text then Some (str "cpp")
  else if test flag_m re_bash text then Some (str "bash")
  else if test no_flags re_ts text then Some (str "ts")
  else if test no_flags re_python text then Some (str "python")
  else None.

Definition fence : jsstring := str "```".

(** [lang || ""] *)
Definition or_empty (lang : option jsstring) : jsstring :=
  match lang with
  | Some l => l
  | None => []
  end.

Definition fence_open (block : list jsstring) : jsstring :=
  fence ++ or_empty (detectLang block).

(** The three [push] of a code run: [block] arrives last line first. *)
Definition push_block (block_rev : list jsstring) (out : list jsstring)
  : list jsstring :=
  let block := rev block_rev in
  fence_open block :: block ++ fence :: out.

(** The [while] loop over [cleanedLines], as the list [out] it fills.  The
    inner [while] is [run]: it walks on while there is a line and the line is
    code-like; then the block is pushed and the outer loop goes on from the
    line [run] stopped at. *)
Fixpoint group_lines (lines : list jsstring) : list jsstring :=
  match lines with
  | [] => []
  | l :: rest =>
      if isCodeLine l then
        (fix run (block_rev : list jsstring) (r : list jsstring) {struct r}
           : list jsstring :=
           match r with
           | [] => push_block block_rev (group_lines r)
           | l' :: r' =>
               if isCodeLine l' then run (l' :: block_rev) r'
               else push_block block_rev (group_lines r)
           end) [l] rest
      else l :: group_lines rest
  end.

(** [/```/] *)
Definition re_fence : regex := lit fence.

(** [/(;|\{|\}|#include|std::)/g] *)
Definition re_hint : regex :=
  alts [ lit (str ";"); lit (str "{"); lit (str "}");
         lit (str "#include"); lit (str "std::") ].

(** The text the staged pass leaves: [out.join("\n")]. *)
Definition staged (content : jsstring) : jsstring :=
  join nl (group_lines (cleanedLines content)).

(** The condition of the whole-response fence. *)
Definition fallback_applies (result : jsstring) : bool :=
  if negb (test no_flags re_fence result) then
    let hintCount := match_count no_flags re_hint result in
    let lines := length (split LF result) in
    Nat.ltb 2 lines && Nat.leb 2 hintCount
  else false.

Definition wrap_whole (cleaned : list jsstring) (result : jsstring) : jsstring :=
  fence ++ or_empty (detectLang cleaned) ++ nl ++ trim result ++ nl ++ fence.

Definition normalizeAIContent (content : jsstring) : jsstring :=
  let cleaned := cleanedLines content in
  let out := group_lines cleaned in
  let result := join nl out in
  if negb (test no_flags re_fence result) then
    let hintCount := match_count no_flags re_hint result in
    let lines := length (split LF result) in
    if Nat.ltb 2 lines && Nat.leb 2 hintCount then
      wrap_whole cleaned result
    else result
  else result.

(** ** Pieces of an output

    The output as the spec describes it: prose lines, and code blocks between
    the two fence lines the loop adds.  These definitions follow the spec's
    words (sections 3 and 4.3); they are compared with [group_lines] below. *)

Inductive piece : Type :=
| Prose : jsstring -> piece
| Code : list jsstring -> piece.

Definition emit (p : piece) : list jsstring :=
  match p with
  | Prose l => [l]
  | Code block => fence_open block :: block ++ [fence]
  end.

Definition contents (p : piece) : list jsstring :=
  match p with
  | Prose l => [l]
  | Code block => block
  end.

Definition emit_all (ps : list piece) : list jsstring := flat_map emit ps.
Definition contents_all (ps : list piece) : list jsstring := flat_map contents ps.

Definition is_code (p : piece) : bool :=
  match p with Code _ => true | Prose _ => false end.

(** A prose piece is a line that is not code-like; a code block is a run of
    one code-like line at least. *)
Definition piece_ok (p : piece) : Prop :=
  match p with
  | Prose l => isCodeLine l = false
  | Code block => block <> [] /\ Forall (fun l => isCodeLine l = true) block
  end.

(** No two code blocks follow each other: the runs are maximal. *)
Fixpoint no_adjacent_code (ps : list piece) : bool :=
  match ps with
  | [] => true
  | p :: ps' =>
      match ps' with
      | q :: _ => negb (is_code p && is_code q)
      | [] => true
      end && no_adjacent_code ps'
  end.

(** ** Occurrences of a text *)

Fixpoint starts (fl : flags) (pat s : jsstring) : bool :=
  match pat, s with
  | [], _ => true
  | c :: pat', a :: s' => char_match fl a c && starts fl pat' s'
  | _ :: _, [] => false
  end.

Definition starts_with (pat s : jsstring) : bool := starts no_flags pat s.

Fixpoint contains (pat s : jsstring) : bool :=
  starts_with pat s
  || match s with
     | [] => false
     | _ :: s' => contains pat s'
     end.

(** ** The classifier as the spec words it (section 4.2) *)

Definition two_leading_spaces (line : jsstring) : bool :=
  match line with
  | c :: d :: _ => is_space c && is_space d
  | _ => false
  end.

(** "begins with [tok], optionally preceded by whitespace". *)
Definition begins_after_space (tok line : jsstring) : bool :=
  starts_with tok (ltrim line).

Definition code_signal (line : jsstring) : bool :=
  contains (str ";") line || contains (str "{") line || contains (str "}") line
  || contains (str "#include") line
  || contains (str "std::") line
  || two_leading_spaces line
  || begins_after_space (str "//") line || begins_after_space (str "#") line
  || begins_after_space (str "g++") line || begins_after_space (str "./") line
  || begins_after_space (str "npm ") line
  || begins_after_space (str "yarn ") line
  || begins_after_space (str "pnpm ") line.

Definition nonempty_after_trim (line : jsstring) : bool :=
  negb (jseqb (trim line) []).

Definition spec_code_like (line : jsstring) : bool :=
  nonempty_after_trim line && code_signal line.

(** ** Fence markers of an output *)

Definition is_marker (l : jsstring) : bool := contains fence l.

(** The marker lines alternate: outside a block a marker opens one, inside a
    block the next marker is the bare closing fence, and the text ends outside. *)
Fixpoint fences_paired (inside : bool) (ls : list jsstring) : bool :=
  match ls with
  | [] => negb inside
  | l :: ls' =>
      if is_marker l then
        if inside then jseqb l fence && fences_paired false ls'
        else fences_paired true ls'
      else fences_paired inside ls'
  end.

Definition marker_count (ls : list jsstring) : nat :=
  length (filter is_marker ls).

(** ** Lines *)

(** A line holds no line feed. *)
Definition no_LF (l : jsstring) : Prop := ~ In LF l.

(** The lines of a joined text: the array itself, or the one empty line of
    the empty text. *)
Definition lines_of (ls : list jsstring) : list jsstring :=
  match ls with [] => [[]] | _ => ls end.

(** ** Matching at a position *)

Definition is_some {A : Type} (o : option A) : bool :=
  match o with Some _ => true | None => false end.

(** The pattern matches at the position after [b] and before [a]. *)
Definition matches_at (fl : flags) (r : regex) (b a : jsstring) : bool :=
  is_some (rmatch fl r (State b a) Some).

(** Some position of the text, from the current one on, satisfies [f]. *)
Fixpoint any_pos (f : jsstring -> jsstring -> bool) (b a : jsstring) : bool :=
  f b a
  || match a with
     | [] => false
     | c :: a' => any_pos f (c :: b) a'
     end.

(** A token that does not start on whitespace. *)
Definition solid (tok : jsstring) : bool :=
  match tok with
  | c :: _ => negb (is_space c)
  | [] => false
  end.

(** ** The loop, in parts *)

(** The inner [while] of [group_lines], by itself. *)
Fixpoint code_run (block_rev r : list jsstring) : list jsstring :=
  match r with
  | [] => push_block block_rev (group_lines r)
  | l' :: r' =>
      if isCodeLine l' then code_run (l' :: block_rev) r'
      else push_block block_rev (group_lines r)
  end.

(** The longest run of code-like lines a list starts with, and what follows. *)
Fixpoint code_prefix (ls : list jsstring) : list jsstring :=
  match ls with
  | [] => []
  | l :: ls' => if isCodeLine l then l :: code_prefix ls' else []
  end.

Fixpoint code_rest (ls : list jsstring) : list jsstring :=
  match ls with
  | [] => []
  | l :: ls' => if isCodeLine l then code_rest ls' else ls
  end.

(** The grouper as the spec words it (section 4.3): at a code-like line the
    maximal run from there on is one block, any other line is prose.  A round
    takes one line at least, so [length lines] rounds are enough. *)
Fixpoint pieces_upto (n : nat) (lines : list jsstring) : list piece :=
  match n with
  | O => []
  | S n' =>
      match lines with
      | [] => []
      | l :: rest =>
          if isCodeLine l
          then Code (l :: code_prefix rest) :: pieces_upto n' (code_rest rest)
          else Prose l :: pieces_upto n' rest
      end
  end.

Definition pieces (lines : list jsstring) : list piece :=
  pieces_upto (length lines) lines.

(** ** Artifacts *)

Definition is_letter (c : char) : bool :=
  ((65 <=? c) && (c <=? 90)) || ((97 <=? c) && (c <=? 122)).

Definition badge : jsstring := str "Copyhljs".


(** A line the normaliser has nothing to do with: it is not code-like, the
    filter keeps it and the badge pattern finds nothing to cut. *)
Definition plain_line (l : jsstring) : bool :=
  negb (isCodeLine l) && keep_line l && jseqb (strip_badge l) l.

(** A well-formed fenced block among the lines of a text: an opening fence
    with a tag free of backticks, lines without fence, the closing fence. *)
Definition has_fenced_block (content : jsstring) : Prop :=
  exists pre tag body post,
    split LF content = pre ++ (fence ++ tag) :: body ++ fence :: post
    /\ contains (str "`") tag = false
    /\ Forall (fun l => contains fence l = false) body.

(** ** [CodeBlock]

    The component as a function from its three props to what it renders.
    The state [copied], which only switches the label of the button for a
    moment after a click, is left out. *)

(** [children]: a string, an array, or any other node (an element, a number,
    [null], ...). *)
#[warnings="-register-all"]
Inductive node : Type :=
| NString : jsstring -> node
| NArray : list node -> node
| NOther : node.

(** What [CodeBlock] returns: with [inline], a [code] element with its class
    and the children as they came; otherwise a [pre] with its class around
    the text, the button that copies that same text, and the badge of the
    language when there is one. *)
Inductive rendered : Type :=
| InlineCode : jsstring -> node -> rendered
| Block : jsstring -> jsstring -> option jsstring -> rendered.

(** [typeof child === "string" ? child : ""] *)
Definition child_text (child : node) : jsstring :=
  match child with
  | NString s => s
  | _ => []
  end.

(** [/\n$/] *)
Definition re_final_newline : regex := seqs [Chr LF; Eol].

(** [s.replace(pat, repl)] for a string pattern and a replacement text
    without [$]: the first occurrence only. *)
Fixpoint replace_text (pat repl s : jsstring) : jsstring :=
  if starts_with pat s then repl ++ skipn (length pat) s
  else match s with
       | [] => []
       | c :: s' => c :: replace_text pat repl s'
       end.

(** The prop [inline?: boolean] as a condition. *)
Definition is_inline (inline : option bool) : bool :=
  match inline with
  | Some true => true
  | _ => false
  end.

Definition CodeBlock (inline : option bool) (className : option jsstring)
  (children : node) : rendered :=
  if is_inline inline then
    InlineCode (str "bg-gray-100 rounded px-1 " ++ or_empty className) children
  else
    let language := replace_text (str "language-") [] (or_empty className) in
    let text :=
      match children with
      | NString s => s
      | NArray cs => join [] (map child_text cs)
      | NOther => []
      end in
    let text := replace no_flags re_final_newline [] text in
    Block (or_empty className ++ str " overflow-x-auto rounded-lg p-3") text
      (match language with [] => None | _ => Some language end).

(** What the element shows between its tags. *)
Definition shown (r : rendered) : node :=
  match r with
  | InlineCode _ children => children
  | Block _ text _ => NString text
  end.

(** The text of a block, which is also what its button copies. *)
Definition text_of (r : rendered) : option jsstring :=
  match r with
  | InlineCode _ _ => None
  | Block _ text _ => Some text
  end.

Definition badge_of (r : rendered) : option jsstring :=
  match r with
  | InlineCode _ _ => None
  | Block _ _ badge => badge
  end.

Definition class_of (r : rendered) : jsstring :=
  match r with
  | InlineCode c _ => c
  | Block c _ _ => c
  end.

Definition is_NString (child : node) : bool :=
  match child with NString _ => true | _ => false end.

Definition ends_with_LF (s : jsstring) : bool :=
  match rev s with
  | c :: _ => c =? LF
  | [] => false
  end.

(** The badge for a language: none for the empty one. *)
Definition badge_for (language : jsstring) : option jsstring :=
  match language with [] => None | _ => Some language end.

(** ** Mid-line badges

    "white space followed by [Copyhljs] as a whole word", in any case,
    somewhere in a line; and a text whose only line terminators are line
    feeds. *)



(** ** The reply of the service

    [response.json()] gives a JSON value; its numbers are binary64 values. *)

#[warnings="-register-all"]
Inductive json : Type :=
| JNull : json
| JBool : bool -> json
| JNum : SpecFloat.spec_float -> json
| JStr : jsstring -> json
| JArr : list json -> json
| JObj : list (jsstring * json) -> json.   (* the properties, each key once *)

(** A value that may be [undefined]. *)
Definition value := option json.

Fixpoint lookup (key : jsstring) (props : list (jsstring * json)) : value :=
  match props with
  | [] => None
  | (k, v) :: props' => if jseqb k key then Some v else lookup key props'
  end.

(** [v?.name] for a name that no prototype defines, as [candidates],
    [content], [parts] and [text] are: only an object can have it. *)
Definition member (name : jsstring) (v : value) : value :=
  match v with
  | Some (JObj props) => lookup name props
  | _ => None
  end.

(** [v?.[0]]: the first element of an array, the first code unit of a
    string, the property [0] of an object. *)
Definition first (v : value) : value :=
  match v with
  | Some (JArr xs) => head xs
  | Some (JStr s) => match s with c :: _ => Some (JStr [c]) | [] => None end
  | Some (JObj props) => lookup (str "0") props
  | _ => None
  end.

(** ToBoolean. *)
Definition truthy (v : value) : bool :=
  match v with
  | None => false
  | Some JNull => false
  | Some (JBool b) => b
  | Some (JNum x) =>
      match x with
      | SpecFloat.S754_zero _ | SpecFloat.S754_nan => false
      | _ => true
      end
  | Some (JStr s) => match s with [] => false | _ => true end
  | Some (JArr _) => true
  | Some (JObj _) => true
  end.

Definition sorry_text : jsstring := str "Sorry, I couldn't generate a response.".

(** [data?.candidates?.[0]?.content?.parts?.[0]?.text] *)
Definition reply_text (data : json) : value :=
  member (str "text")
    (first (member (str "parts")
       (member (str "content")
          (first (member (str "candidates") (Some data)))))).

(** [... || "Sorry, I couldn't generate a response."] *)
Definition aiReply (data : json) : json :=
  match reply_text data with
  | Some v => if truthy (Some v) then v else JStr sorry_text
  | None => JStr sorry_text
  end.

(** ** The chat *)

Inductive Role : Type := User | Ai.

Record Message : Type := { role : Role; content : json }.

(** The three pieces of state of [ChatApp]. *)
Record ChatState : Type :=
  { currentChat : list Message; input : jsstring; loading : bool }.

Definition initial : ChatState :=
  {| currentChat := []; input := []; loading := false |}.

(** What [fetch] and [response.json()] come to: a rejection, which the [catch]
    takes, or the parsed body. *)
Inductive outcome : Type :=
| Rejected : outcome
| Resolved : json -> outcome.

(** The value given to [JSON.stringify] for the body of the request. *)
Definition request_body (text : jsstring) : json :=
  JObj [(str "contents",
         JArr [JObj [(str "parts", JArr [JObj [(str "text", JStr text)]])]])].

(** [handleSend] up to its first [await]: nothing on a blank input, else the
    state after the three setters and the body of the request. *)
Definition handleSend_request (s : ChatState) : option (ChatState * json) :=
  match trim (input s) with
  | [] => None
  | _ =>
      let newMessage := {| role := User; content := JStr (input s) |} in
      let updatedChat := currentChat s ++ [newMessage] in
      Some ({| currentChat := updatedChat; input := []; loading := true |},
            request_body (input s))
  end.

(** [handleSend] from the [await] on, on the state of that moment: the
    updater [prev => [...prev, aiMessage]] when a body was parsed, nothing
    but [console.error] in the [catch], [setLoading(false)] in the
    [finally]. *)
Definition handleSend_settle (o : outcome) (s : ChatState) : ChatState :=
  match o with
  | Resolved data =>
      let aiMessage := {| role := Ai; content := aiReply data |} in
      {| currentChat := currentChat s ++ [aiMessage]; input := input s;
         loading := false |}
  | Rejected =>
      {| currentChat := currentChat s; input := input s; loading := false |}
  end.

(** A call of [handleSend] that nothing else interleaves with. *)
Definition handleSend (s : ChatState) (o : outcome) : ChatState :=
  match handleSend_request s with
  | Some (s', _) => handleSend_settle o s'
  | None => s
  end.

Definition handleNewChat (s : ChatState) : ChatState :=
  {| currentChat := []; input := []; loading := loading s |}.

(** [onChange] of the input box: [setInput(e.target.value)]. *)
Definition setInput (text : jsstring) (s : ChatState) : ChatState :=
  {| currentChat := currentChat s; input := text; loading := loading s |}.

(** The events of the component, and the handler each one runs: a change
    of the input box, the send button or the Enter key ([handleSend] up to
    its [await]), a request that settles, the new-chat button. *)
Inductive event : Type :=
| Typed : jsstring -> event
| Send : event
| Settled : outcome -> event
| NewChat : event.

Definition handle (e : event) (s : ChatState) : ChatState :=
  match e with
  | Typed text => setInput text s
  | Send =>
      match handleSend_request s with
      | Some (s', _) => s'
      | None => s
      end
  | Settled o => handleSend_settle o s
  | NewChat => handleNewChat s
  end.

Definition is_NewChat (e : event) : bool :=
  match e with NewChat => true | _ => false end.

(** One event of the component, handled by the handlers of the render of
    the current state: a change of the input box, a call of [handleSend] up
    to its [await], a request that settles, the new-chat button. *)
Inductive step : ChatState -> ChatState -> Prop :=
| step_input : forall s text, step s (setInput text s)
| step_request : forall s s' body,
    handleSend_request s = Some (s', body) -> step s s'
| step_settle : forall s o, step s (handleSend_settle o s)
| step_new : forall s, step s (handleNewChat s).

Inductive reachable : ChatState -> Prop :=
| reach_initial : reachable initial
| reach_step : forall s s', reachable s -> step s s' -> reachable s'.

(** A message as the handlers make them: a question that is a string and
    not blank, an answer that is not falsy. *)
Definition message_ok (m : Message) : bool :=
  match role m with
  | User =>
      match content m with
      | JStr s => match trim s with [] => false | _ => true end
      | _ => false
      end
  | Ai => truthy (Some (content m))
  end.

(** * Properties *)

(** ** Code units *)

Ltac char_facts :=
  unfold is_space, is_word, is_dot, is_line_terminator, canon, LF in *;
  repeat match goal with
         | H : _ |- _ =>
             progress rewrite ?orb_true_iff, ?andb_true_iff, ?orb_false_iff,
               ?andb_false_iff, ?negb_true_iff, ?negb_false_iff, ?N.eqb_eq,
               ?N.eqb_neq, ?N.leb_le, ?N.leb_gt in H
         end;
  repeat rewrite ?orb_true_iff, ?andb_true_iff, ?orb_false_iff, ?andb_false_iff,
    ?negb_true_iff, ?negb_false_iff, ?N.eqb_eq, ?N.eqb_neq, ?N.leb_le, ?N.leb_gt;
  try lia.

Lemma space_not_word c : is_space c = true -> is_word c = false.
Proof. intros H. char_facts. Qed.

Lemma jseqb_eq s t : jseqb s t = true <-> s = t.
Proof.
  revert t; induction s as [|c s IH]; intros [|d t]; simpl; split;
    try congruence; try discriminate.
  - rewrite andb_true_iff, N.eqb_eq, IH. intros [-> ->]; reflexivity.
  - intros E; injection E as -> ->. rewrite N.eqb_refl, (proj2 (IH t)); auto.
Qed.

Lemma jseqb_refl s : jseqb s s = true.
Proof. apply jseqb_eq; reflexivity. Qed.

(** ** [split] and [join] *)

Lemma split_nonempty sep s : split sep s <> [].
Proof.
  destruct s as [|c s]; simpl; [discriminate|].
  destruct (c =? sep); [discriminate|].
  destruct (split sep s); discriminate.
Qed.

Lemma join_cons sep l a :
  a <> [] -> join sep (l :: a) = l ++ sep ++ join sep a.
Proof. destruct a; [congruence | reflexivity]. Qed.

Lemma join_cons_nl l a :
  a <> [] -> join nl (l :: a) = l ++ LF :: join nl a.
Proof. destruct a; [congruence | reflexivity]. Qed.

Lemma join_split s : join nl (split LF s) = s.
Proof.
  induction s as [|c s IH]; simpl; [reflexivity|].
  destruct (N.eqb_spec c LF) as [->|Hc].
  - rewrite join_cons by apply split_nonempty. simpl. now rewrite IH.
  - pose proof (split_nonempty LF s) as Hne.
    destruct (split LF s) as [|l ls]; [congruence|].
    destruct ls as [|l' ls]; rewrite <- IH; reflexivity.
Qed.

Lemma split_no_LF s : Forall no_LF (split LF s).
Proof.
  induction s as [|c s IH]; simpl.
  - constructor; [intros []|constructor].
  - destruct (N.eqb_spec c LF) as [->|Hc].
    + constructor; [intros []|exact IH].
    + pose proof (split_nonempty LF s) as Hne.
      destruct (split LF s) as [|l ls]; [congruence|].
      inversion IH; subst. constructor; [|assumption].
      intros [E|E]; [congruence|contradiction].
Qed.

Lemma split_line l : no_LF l -> split LF l = [l].
Proof.
  induction l as [|c l IH]; intros H; simpl; [reflexivity|].
  destruct (N.eqb_spec c LF) as [->|Hc].
  - exfalso; apply H; left; reflexivity.
  - rewrite IH; [reflexivity|]. intros E; apply H; right; exact E.
Qed.

Lemma split_app_LF l rest :
  no_LF l -> split LF (l ++ LF :: rest) = l :: split LF rest.
Proof.
  induction l as [|c l IH]; intros H; simpl.
  - reflexivity.
  - destruct (N.eqb_spec c LF) as [->|Hc].
    + exfalso; apply H; left; reflexivity.
    + rewrite IH; [reflexivity|]. intros E; apply H; right; exact E.
Qed.

Lemma split_join ls :
  ls <> [] -> Forall no_LF ls -> split LF (join nl ls) = ls.
Proof.
  induction ls as [|l ls IH]; intros Hne Hall; [congruence|].
  inversion Hall; subst.
  destruct ls as [|l' ls].
  - simpl. now apply split_line.
  - rewrite join_cons_nl by discriminate.
    rewrite split_app_LF by assumption.
    rewrite IH; [reflexivity|discriminate|assumption].
Qed.

Lemma split_join_lines ls :
  Forall no_LF ls -> split LF (join nl ls) = lines_of ls.
Proof.
  destruct ls as [|l ls]; intros H; [reflexivity|].
  now apply split_join.
Qed.

(** ** The matcher *)

Lemma rmatch_lit fl pat b a k :
  rmatch fl (lit pat) (State b a) k =
  if starts fl pat a
  then k (State (rev (firstn (length pat) a) ++ b) (skipn (length pat) a))
  else None.
Proof.
  revert b a; induction pat as [|c pat IH]; intros b a; simpl.
  - reflexivity.
  - destruct a as [|d a]; simpl; [reflexivity|].
    destruct (char_match fl d c); simpl; [|reflexivity].
    rewrite IH. destruct (starts fl pat a); [|reflexivity].
    now rewrite <- app_assoc.
Qed.

(** What the matcher returns, the continuation returned. *)
Lemma rep_class_cont p k z : forall a min b,
  rep_class p min b a k = Some z -> exists y, k y = Some z.
Proof.
  induction a as [|c a IH]; intros min b H; simpl in H.
  - destruct min; [eauto|discriminate].
  - destruct (p c).
    + destruct (rep_class p (Nat.pred min) (c :: b) a k) eqn:E.
      * injection H as ->. eapply IH; eauto.
      * destruct min; [eauto|discriminate].
    + destruct min; [eauto|discriminate].
Qed.

Lemma rmatch_cont fl r : forall x k z,
  rmatch fl r x k = Some z -> exists y, k y = Some z.
Proof.
  induction r as [|c|min p|r1 IH1 r2 IH2|r1 IH1 r2 IH2| | |]; intros x k z H;
    simpl in H.
  - eauto.
  - destruct (after x); [discriminate|].
    destruct (char_match fl c0 c); [eauto|discriminate].
  - eapply rep_class_cont; eauto.
  - apply IH1 in H. destruct H as [y H]. eapply IH2; eauto.
  - destruct (rmatch fl r1 x k) eqn:E.
    + injection H as ->. eapply IH1; eauto.
    + eapply IH2; eauto.
  - destruct (at_bol fl x); [eauto|discriminate].
  - destruct (at_eol fl x); [eauto|discriminate].
  - destruct (at_wordb x); [eauto|discriminate].
Qed.

(** The matcher only moves on: the position it hands to the continuation is
    not before the one it started at. *)
Lemma rep_class_forward p k z : forall a min b,
  rep_class p min b a k = Some z ->
  exists y, k y = Some z /\ (length (after y) <= length a)%nat.
Proof.
  induction a as [|c a IH]; intros min b H; simpl in H.
  - destruct min; [|discriminate]. exists (State b []). auto.
  - assert (Hstop : match min with O => k (State b (c :: a)) | S _ => None end = Some z ->
                    exists y, k y = Some z /\ (length (after y) <= length (c :: a))%nat).
    { destruct min; [|discriminate]. intros Hk. exists (State b (c :: a)). auto. }
    destruct (p c); [|now apply Hstop].
    destruct (rep_class p (Nat.pred min) (c :: b) a k) eqn:E; [|now apply Hstop].
    injection H as ->. apply IH in E. destruct E as (y & Hy & Hlen).
    exists y. simpl. split; [exact Hy|lia].
Qed.

Lemma rmatch_forward fl r : forall x k z,
  rmatch fl r x k = Some z ->
  exists y, k y = Some z /\ (length (after y) <= length (after x))%nat.
Proof.
  induction r as [|c|min p|r1 IH1 r2 IH2|r1 IH1 r2 IH2| | |]; intros x k z H;
    simpl in H.
  - eauto.
  - destruct (after x) as [|a rest] eqn:Ex; [discriminate|].
    destruct (char_match fl a c); [|discriminate].
    eexists. split; [exact H|]. simpl. lia.
  - eapply rep_class_forward; eauto.
  - apply IH1 in H. destruct H as (y1 & H & Hlen1).
    apply IH2 in H. destruct H as (y2 & H & Hlen2).
    exists y2. split; [exact H|lia].
  - destruct (rmatch fl r1 x k) eqn:E.
    + injection H as ->. eapply IH1; eauto.
    + eapply IH2; eauto.
  - destruct (at_bol fl x); [eauto|discriminate].
  - destruct (at_eol fl x); [eauto|discriminate].
  - destruct (at_wordb x); [eauto|discriminate].
Qed.

(** A repetition with no minimum never fails by itself. *)
Lemma rep_class_zero_some p : forall a b, is_some (rep_class p 0 b a Some) = true.
Proof.
  induction a as [|c a IH]; intros b; simpl; [reflexivity|].
  destruct (p c); [|reflexivity].
  destruct (rep_class p 0 (c :: b) a Some); reflexivity.
Qed.

(** A repetition with a minimum starts on a character of the class. *)
Lemma rep_class_pos_head p min b a k z :
  rep_class p (S min) b a k = Some z ->
  exists c a', a = c :: a' /\ p c = true.
Proof.
  destruct a as [|c a]; simpl; [discriminate|].
  destruct (p c) eqn:Hc; [eauto|discriminate].
Qed.

(** [\s*] before something that cannot start on whitespace: all the leading
    whitespace is skipped. *)
Lemma rep_space_skip k :
  (forall b c a, is_space c = true -> k (State b (c :: a)) = None) ->
  forall a b, exists b', rep_class is_space 0 b a k = k (State b' (ltrim a)).
Proof.
  intros Hk; induction a as [|c a IH]; intros b; simpl.
  - eauto.
  - destruct (is_space c) eqn:Hc.
    + destruct (IH (c :: b)) as [b' E]. exists b'. rewrite E.
      destruct (k (State b' (ltrim a))); [reflexivity|]. now apply Hk.
    + eauto.
Qed.

(** ** The search *)

Section Search.

Variable fl : flags.
Variable r : regex.

Lemma exec_from_any : forall a b,
  is_some (exec_from fl r b a) = any_pos (matches_at fl r) b a.
Proof.
  induction a as [|c a IH]; intros b; simpl; unfold matches_at.
  - destruct (rmatch fl r (State b []) Some); reflexivity.
  - destruct (rmatch fl r (State b (c :: a)) Some); simpl; [reflexivity|].
    apply IH.
Qed.

Lemma test_any s : test fl r s = any_pos (matches_at fl r) [] s.
Proof.
  unfold test, exec. rewrite <- exec_from_any.
  destruct (exec_from fl r [] s); reflexivity.
Qed.

Lemma exec_from_some x y : forall a b,
  exec_from fl r b a = Some (x, y) ->
  exists pre post,
    a = pre ++ post /\ x = State (rev pre ++ b) post /\
    rmatch fl r x Some = Some y.
Proof.
  induction a as [|c a IH]; intros b H; simpl in H.
  - destruct (rmatch fl r (State b []) Some) eqn:E; [|discriminate].
    injection H as <- <-. exists [], []. auto.
  - destruct (rmatch fl r (State b (c :: a)) Some) eqn:E.
    + injection H as <- <-. exists [], (c :: a). auto.
    + apply IH in H. destruct H as (pre & post & -> & -> & H).
      exists (c :: pre), post. simpl. rewrite <- app_assoc. auto.
Qed.


Lemma exec_from_forward x y : forall a b,
  exec_from fl r b a = Some (x, y) ->
  (length (after y) <= length (after x) <= length a)%nat.
Proof.
  intros a b H. apply exec_from_some in H.
  destruct H as (pre & post & -> & -> & H).
  apply rmatch_forward in H. destruct H as (y' & Hy & Hlen).
  injection Hy as ->. cbn [after] in *. rewrite length_app. lia.
Qed.

(** Any number of rounds above the length of the text counts the same
    matches: the search never stops for want of rounds. *)
Lemma count_from_fuel : forall n m a b,
  (length a < n)%nat -> (length a < m)%nat ->
  count_from n fl r b a = count_from m fl r b a.
Proof.
  induction n as [|n IH]; intros m a b Hn Hm; [lia|].
  destruct m as [|m]; [lia|]. cbn [count_from].
  destruct (exec_from fl r b a) as [[x y]|] eqn:E; [|reflexivity].
  apply exec_from_forward in E.
  destruct (Nat.eqb_spec (length (after y)) (length (after x))) as [Heq|Hne].
  - destruct (after y) as [|c a'] eqn:Ey; [reflexivity|].
    f_equal. simpl in *. apply IH; lia.
  - f_equal. apply IH; lia.
Qed.

Lemma match_count_fuel s n :
  (length s < n)%nat -> count_from n fl r [] s = match_count fl r s.
Proof. intros H. unfold match_count. apply count_from_fuel; lia. Qed.

End Search.

Lemma any_pos_ext f g :
  (forall b a, f b a = g b a) -> forall a b, any_pos f b a = any_pos g b a.
Proof.
  intros E; induction a as [|c a IH]; intros b; simpl; rewrite E; [reflexivity|].
  now rewrite IH.
Qed.

Lemma any_pos_or f g : forall a b,
  any_pos (fun b a => f b a || g b a) b a = any_pos f b a || any_pos g b a.
Proof.
  induction a as [|c a IH]; intros b; simpl.
  - now rewrite !orb_false_r.
  - rewrite IH. destruct (f b (c :: a)), (g b (c :: a)); simpl;
      rewrite ?orb_true_r; reflexivity.
Qed.

Lemma any_pos_at f : forall pre b post,
  f (rev pre ++ b) post = true -> any_pos f b (pre ++ post) = true.
Proof.
  induction pre as [|c pre IH]; intros b post H.
  - cbn [app rev] in *. destruct post; cbn [any_pos]; now rewrite H.
  - cbn [app any_pos]. rewrite (IH (c :: b) post); [apply orb_true_r|].
    cbn [rev] in H. now rewrite <- app_assoc in H.
Qed.

Lemma matches_at_alt fl r1 r2 b a :
  matches_at fl (Alt r1 r2) b a = matches_at fl r1 b a || matches_at fl r2 b a.
Proof.
  unfold matches_at; simpl.
  destruct (rmatch fl r1 (State b a) Some); reflexivity.
Qed.

Lemma test_alt fl r1 r2 s :
  test fl (Alt r1 r2) s = test fl r1 s || test fl r2 s.
Proof.
  rewrite !test_any, <- any_pos_or. apply any_pos_ext.
  intros; apply matches_at_alt.
Qed.

Lemma matches_at_lit fl pat b a : matches_at fl (lit pat) b a = starts fl pat a.
Proof.
  unfold matches_at. rewrite rmatch_lit. destruct (starts fl pat a); reflexivity.
Qed.

Lemma any_pos_starts pat : forall a b,
  any_pos (fun _ a => starts no_flags pat a) b a = contains pat a.
Proof.
  induction a as [|c a IH]; intros b; simpl; [reflexivity|].
  now rewrite IH.
Qed.

Lemma test_lit pat s : test no_flags (lit pat) s = contains pat s.
Proof.
  rewrite test_any, <- (any_pos_starts pat s []). apply any_pos_ext.
  intros; apply matches_at_lit.
Qed.

(** Without the [m] flag, [^] holds at the start of the text only. *)
Lemma any_pos_start f :
  (forall c b a, f (c :: b) a = false) ->
  forall s, any_pos f [] s = f [] s.
Proof.
  intros Hf.
  assert (Hne : forall a c b, any_pos f (c :: b) a = false).
  { induction a as [|d a IH]; intros c b; simpl; rewrite Hf; [reflexivity|].
    apply IH. }
  intros [|c s]; simpl; [now rewrite orb_false_r|].
  now rewrite Hne, orb_false_r.
Qed.

Lemma matches_at_bol fl r c b a :
  multiline fl = false -> matches_at fl (Seq Bol r) (c :: b) a = false.
Proof. intros Hm. unfold matches_at; simpl. unfold at_bol; simpl. now rewrite Hm. Qed.

Lemma test_bol fl r s :
  multiline fl = false -> test fl (Seq Bol r) s = matches_at fl r [] s.
Proof.
  intros Hm. rewrite test_any, any_pos_start.
  - reflexivity.
  - intros; now apply matches_at_bol.
Qed.

(** ** The classifier *)

Lemma starts_space_head tok d a :
  solid tok = true -> is_space d = true -> starts no_flags tok (d :: a) = false.
Proof.
  destruct tok as [|c tok]; simpl; [discriminate|].
  intros Hc Hd. unfold char_match; simpl.
  destruct (N.eqb_spec d c) as [->|]; [|reflexivity].
  rewrite Hd in Hc; discriminate.
Qed.

Lemma skip_space_matches fl r :
  (forall b c a, is_space c = true -> matches_at fl r b (c :: a) = false) ->
  forall b s, exists b',
    matches_at fl (Seq (Rep 0 is_space) r) b s = matches_at fl r b' (ltrim s).
Proof.
  intros Hr b s. unfold matches_at; simpl.
  destruct (rep_space_skip (fun y => rmatch fl r y Some)) with (a := s) (b := b)
    as [b' E].
  - intros b0 c a Hc. specialize (Hr b0 c a Hc). unfold matches_at in Hr.
    destruct (rmatch fl r (State b0 (c :: a)) Some); [discriminate|reflexivity].
  - exists b'. now rewrite E.
Qed.

Lemma matches_space_lit tok b s :
  solid tok = true ->
  matches_at no_flags (Seq (Rep 0 is_space) (lit tok)) b s =
  begins_after_space tok s.
Proof.
  intros Hc.
  destruct (@skip_space_matches no_flags (lit tok)) with (b := b) (s := s)
    as [b' E].
  - intros. rewrite matches_at_lit. now apply starts_space_head.
  - rewrite E, matches_at_lit. reflexivity.
Qed.

Lemma matches_two_spaces s :
  matches_at no_flags (Rep 2 is_space) [] s = two_leading_spaces s.
Proof.
  unfold matches_at; simpl.
  destruct s as [|c [|d s]]; simpl.
  - reflexivity.
  - destruct (is_space c); reflexivity.
  - destruct (is_space c); simpl; [|reflexivity].
    destruct (is_space d); simpl; [|reflexivity].
    pose proof (rep_class_zero_some is_space s [d; c]) as H.
    destruct (rep_class is_space 0 [d; c] s Some); [reflexivity|discriminate].
Qed.

Lemma matches_shell_tokens s :
  matches_at no_flags
    (Seq (Rep 0 is_space)
       (alts [lit (str "g++"); lit (str "./"); lit (str "npm ");
              lit (str "yarn "); lit (str "pnpm ")])) [] s =
  begins_after_space (str "g++") s || begins_after_space (str "./") s
  || begins_after_space (str "npm ") s || begins_after_space (str "yarn ") s
  || begins_after_space (str "pnpm ") s.
Proof.
  match goal with
  | |- matches_at _ (Seq _ ?r) _ _ = _ =>
      destruct (@skip_space_matches no_flags r) with (b := @nil char) (s := s)
        as [b' E]
  end.
  - intros b c a Hc. cbn [alts]. rewrite !matches_at_alt, !matches_at_lit.
    rewrite !starts_space_head by (reflexivity || assumption). reflexivity.
  - rewrite E. cbn [alts]. rewrite !matches_at_alt, !matches_at_lit.
    unfold begins_after_space, starts_with. now rewrite !orb_assoc.
Qed.

Lemma test_re_code line : test no_flags re_code line = code_signal line.
Proof.
  unfold re_code. cbn [alts seqs].
  rewrite !test_alt, !test_lit, !test_bol by reflexivity.
  rewrite matches_two_spaces, matches_shell_tokens.
  rewrite !matches_space_lit by reflexivity.
  unfold code_signal. now rewrite !orb_assoc.
Qed.

Lemma isCodeLine_spec line : isCodeLine line = spec_code_like line.
Proof.
  unfold isCodeLine, spec_code_like, nonempty_after_trim.
  rewrite test_re_code. destruct (trim line); reflexivity.
Qed.

Lemma ltrim_all_space s : forallb is_space s = true -> ltrim s = [].
Proof.
  induction s as [|c s IH]; simpl; [reflexivity|].
  destruct (is_space c); simpl; [exact IH|discriminate].
Qed.

Lemma trim_all_space s : forallb is_space s = true -> trim s = [].
Proof. intros H. unfold trim. now rewrite ltrim_all_space. Qed.

(** ** The loop *)

Lemma group_lines_cons l rest :
  group_lines (l :: rest) =
  if isCodeLine l then code_run [l] rest else l :: group_lines rest.
Proof. reflexivity. Qed.

Lemma group_lines_prose l rest :
  isCodeLine l = false -> group_lines (l :: rest) = l :: group_lines rest.
Proof. intros H. now rewrite group_lines_cons, H. Qed.

Lemma code_run_span : forall r block_rev,
  code_run block_rev r =
  push_block (rev (code_prefix r) ++ block_rev) (group_lines (code_rest r)).
Proof.
  induction r as [|l r IH]; intros block_rev.
  - reflexivity.
  - cbn [code_run code_prefix code_rest]. destruct (isCodeLine l) eqn:Hl.
    + rewrite IH. cbn [rev]. now rewrite <- app_assoc.
    + reflexivity.
Qed.

Lemma group_lines_code l rest :
  isCodeLine l = true ->
  group_lines (l :: rest) =
  emit (Code (l :: code_prefix rest)) ++ group_lines (code_rest rest).
Proof.
  intros H. rewrite group_lines_cons, H, code_run_span.
  unfold push_block, emit. rewrite rev_app_distr, rev_involutive. cbn [rev app].
  rewrite <- app_assoc. reflexivity.
Qed.

Lemma code_split ls : code_prefix ls ++ code_rest ls = ls.
Proof.
  induction ls as [|l ls IH]; simpl; [reflexivity|].
  destruct (isCodeLine l); simpl; [now rewrite IH|reflexivity].
Qed.

Lemma code_prefix_all ls : Forall (fun l => isCodeLine l = true) (code_prefix ls).
Proof.
  induction ls as [|l ls IH]; simpl; [constructor|].
  destruct (isCodeLine l) eqn:E; constructor; assumption.
Qed.

Lemma code_rest_length ls : (length (code_rest ls) <= length ls)%nat.
Proof.
  induction ls as [|l ls IH]; simpl; [lia|].
  destruct (isCodeLine l); simpl; lia.
Qed.

Lemma code_rest_head ls :
  match code_rest ls with
  | [] => True
  | l :: _ => isCodeLine l = false
  end.
Proof.
  induction ls as [|l ls IH]; simpl; [exact I|].
  destruct (isCodeLine l) eqn:E; [exact IH|exact E].
Qed.

(** The first piece of a list that does not start on a code-like line is
    no code block. *)
Lemma pieces_upto_head n ls :
  match ls with [] => True | l :: _ => isCodeLine l = false end ->
  match pieces_upto n ls with [] => True | p :: _ => is_code p = false end.
Proof.
  destruct n, ls as [|l ls]; simpl; auto.
  intros ->. reflexivity.
Qed.

Lemma pieces_upto_sound : forall n lines,
  (length lines <= n)%nat ->
  group_lines lines = emit_all (pieces_upto n lines)
  /\ contents_all (pieces_upto n lines) = lines
  /\ Forall piece_ok (pieces_upto n lines)
  /\ no_adjacent_code (pieces_upto n lines) = true.
Proof.
  induction n as [|n IH]; intros lines Hn.
  - destruct lines; [|simpl in Hn; lia]. repeat split; constructor.
  - destruct lines as [|l rest]; [repeat split; constructor|].
    simpl in Hn. cbn [pieces_upto]. destruct (isCodeLine l) eqn:Hl.
    + pose proof (code_rest_length rest) as Hlen.
      destruct (IH (code_rest rest)) as (Hg & Hc & Hok & Hadj); [lia|].
      repeat split.
      * rewrite group_lines_code by assumption. unfold emit_all in *.
        cbn [flat_map]. now rewrite Hg.
      * unfold contents_all in *. cbn [flat_map contents]. rewrite Hc.
        simpl. now rewrite code_split.
      * constructor; [|assumption]. split; [discriminate|].
        constructor; [assumption|apply code_prefix_all].
      * cbn [no_adjacent_code]. rewrite Hadj, andb_true_r.
        pose proof (pieces_upto_head n (code_rest rest) (code_rest_head rest)) as Hh.
        destruct (pieces_upto n (code_rest rest)); [reflexivity|].
        now rewrite Hh.
    + destruct (IH rest) as (Hg & Hc & Hok & Hadj); [lia|].
      repeat split.
      * rewrite group_lines_prose by assumption. unfold emit_all in *.
        cbn [flat_map emit app]. now rewrite Hg.
      * unfold contents_all in *. cbn [flat_map contents app]. now rewrite Hc.
      * constructor; assumption.
      * cbn [no_adjacent_code]. rewrite Hadj, andb_true_r.
        destruct (pieces_upto n rest); reflexivity.
Qed.

Lemma group_lines_pieces lines : group_lines lines = emit_all (pieces lines).
Proof. now apply pieces_upto_sound. Qed.

Lemma pieces_contents lines : contents_all (pieces lines) = lines.
Proof. now apply pieces_upto_sound. Qed.

Lemma pieces_ok lines : Forall piece_ok (pieces lines).
Proof. now apply pieces_upto_sound. Qed.

Lemma pieces_maximal lines : no_adjacent_code (pieces lines) = true.
Proof. now apply pieces_upto_sound. Qed.

(** ** Occurrences *)

Lemma char_match_refl c : char_match no_flags c c = true.
Proof. unfold char_match; simpl. apply N.eqb_refl. Qed.

Lemma starts_app fl pat : forall s t,
  starts fl pat s = true -> starts fl pat (s ++ t) = true.
Proof.
  induction pat as [|c pat IH]; intros s t H; [reflexivity|].
  destruct s as [|d s]; simpl in *; [discriminate|].
  apply andb_true_iff in H. destruct H as [-> H]. simpl. now apply IH.
Qed.

Lemma starts_self pat t : starts_with pat (pat ++ t) = true.
Proof.
  unfold starts_with. induction pat as [|c pat IH]; simpl; [reflexivity|].
  now rewrite char_match_refl, IH.
Qed.

Lemma contains_starts pat s : starts_with pat s = true -> contains pat s = true.
Proof. intros H. destruct s; simpl; now rewrite H. Qed.

Lemma contains_cons pat c s : contains pat s = true -> contains pat (c :: s) = true.
Proof. intros H. simpl. rewrite H. apply orb_true_r. Qed.

Lemma contains_app_r pat s t : contains pat t = true -> contains pat (s ++ t) = true.
Proof.
  intros H. induction s as [|c s IH]; [exact H|].
  simpl app. now apply contains_cons.
Qed.

Lemma contains_app_l pat s t : contains pat s = true -> contains pat (s ++ t) = true.
Proof.
  induction s as [|c s IH]; simpl; intros H.
  - rewrite orb_false_r in H. apply contains_starts.
    unfold starts_with in *. now apply (starts_app _ _ [] t).
  - apply orb_true_iff. apply orb_true_iff in H. destruct H as [H|H].
    + left. exact (starts_app _ pat (c :: s) t H).
    + right. now apply IH.
Qed.

Create HintDb occurs discriminated.
#[local] Hint Resolve contains_starts contains_cons contains_app_l contains_app_r
  starts_self : occurs.

Lemma contains_join_in pat sep l ls :
  In l ls -> contains pat l = true -> contains pat (join sep ls) = true.
Proof.
  intros Hin Hl. induction ls as [|l0 ls IH]; [contradiction|].
  destruct ls as [|l1 ls].
  - destruct Hin as [->|[]]. exact Hl.
  - rewrite join_cons by discriminate. destruct Hin as [->|Hin]; auto with occurs.
Qed.

(** A text without line feed that starts before a line feed ends before it. *)
Lemma starts_before_LF pat : forall l t,
  ~ In LF pat -> starts no_flags pat (l ++ LF :: t) = true ->
  starts no_flags pat l = true.
Proof.
  induction pat as [|c pat IH]; intros l t Hpat H; [reflexivity|].
  destruct l as [|d l]; cbn [starts app] in *.
  - apply andb_true_iff in H. destruct H as [H _].
    unfold char_match in H; cbn [ignoreCase no_flags] in H. apply N.eqb_eq in H.
    exfalso; apply Hpat; left; now symmetry.
  - apply andb_true_iff in H. destruct H as [-> H]. cbn [andb].
    apply (IH l t); [|assumption]. intros E; apply Hpat; now right.
Qed.

Lemma contains_app_LF pat l t :
  ~ In LF pat -> pat <> [] ->
  contains pat (l ++ LF :: t) = true ->
  contains pat l = true \/ contains pat t = true.
Proof.
  intros Hpat Hne. induction l as [|c l IH]; intros H.
  - simpl in H. apply orb_true_iff in H. destruct H as [H|H]; [|now right].
    apply (starts_before_LF pat [] t Hpat) in H.
    destruct pat; [congruence|discriminate].
  - simpl app in H. simpl in H. apply orb_true_iff in H. destruct H as [H|H].
    + left. apply contains_starts.
      exact (starts_before_LF pat (c :: l) t Hpat H).
    + destruct (IH H) as [H'|H']; [left|now right].
      now apply contains_cons.
Qed.

Lemma contains_join_nl pat ls :
  ~ In LF pat -> pat <> [] ->
  contains pat (join nl ls) = true ->
  exists l, In l ls /\ contains pat l = true.
Proof.
  intros Hpat Hne. induction ls as [|l ls IH]; intros H.
  - destruct pat; [congruence|discriminate].
  - destruct ls as [|l1 ls].
    + exists l. split; [now left|exact H].
    + rewrite join_cons_nl in H by discriminate.
      apply contains_app_LF in H; try assumption.
      destruct H as [H|H].
      * exists l. split; [now left|exact H].
      * destruct (IH H) as (l' & Hin & Hl'). exists l'. split; [now right|exact Hl'].
Qed.

Lemma contains_solid tok s :
  solid tok = true -> forallb is_space s = true -> contains tok s = false.
Proof.
  intros Htok. induction s as [|c s IH]; simpl; intros H.
  - destruct tok; [discriminate|reflexivity].
  - apply andb_true_iff in H. destruct H as [Hc Hs].
    unfold starts_with. rewrite starts_space_head by assumption.
    now apply IH.
Qed.

(** ** [trim] *)

Lemma rtrim_nil s : rtrim s = [] -> forallb is_space s = true.
Proof.
  induction s as [|c s IH]; simpl; [reflexivity|].
  destruct (rtrim s); [|discriminate].
  destruct (is_space c); [intros _; now apply IH|discriminate].
Qed.

Lemma ltrim_space s : forallb is_space (ltrim s) = true -> forallb is_space s = true.
Proof.
  induction s as [|c s IH]; simpl; [reflexivity|].
  destruct (is_space c) eqn:Hc; simpl; [exact IH|].
  now rewrite Hc.
Qed.

Lemma trim_nil s : trim s = [] -> forallb is_space s = true.
Proof. intros H. now apply ltrim_space, rtrim_nil. Qed.

(** ** Lines that are not code-like hold no hint *)

Lemma not_code_no_signal tok line :
  solid tok = true ->
  (code_signal line = false -> contains tok line = false) ->
  isCodeLine line = false -> contains tok line = false.
Proof.
  intros Htok Hsig H. rewrite isCodeLine_spec in H.
  unfold spec_code_like in H. apply andb_false_iff in H.
  destruct H as [H|H]; [|now apply Hsig].
  apply contains_solid; [assumption|]. apply trim_nil.
  unfold nonempty_after_trim in H. apply negb_false_iff, jseqb_eq in H. exact H.
Qed.

Lemma test_re_hint s :
  test no_flags re_hint s =
  contains (str ";") s || contains (str "{") s || contains (str "}") s
  || contains (str "#include") s || contains (str "std::") s.
Proof.
  unfold re_hint. cbn [alts]. rewrite !test_alt, !test_lit.
  now rewrite !orb_assoc.
Qed.

Lemma not_code_no_hint line :
  isCodeLine line = false -> test no_flags re_hint line = false.
Proof.
  intros H. rewrite test_re_hint.
  rewrite !(fun tok Ht Hs => @not_code_no_signal tok line Ht Hs H);
    try reflexivity;
    unfold code_signal; intros Hs; repeat (apply orb_false_iff in Hs; destruct Hs as [Hs ?]);
    assumption.
Qed.

(** ** The whole-response fence is never reached *)

Lemma no_LF_check pat :
  forallb (fun c => negb (c =? LF)) pat = true -> ~ In LF pat.
Proof.
  intros H Hin. rewrite forallb_forall in H. specialize (H LF Hin).
  now rewrite N.eqb_refl in H.
Qed.

Lemma hint_join ls :
  test no_flags re_hint (join nl ls) = true ->
  exists l, In l ls /\ test no_flags re_hint l = true.
Proof.
  rewrite test_re_hint. intros H.
  assert (Hl : exists l tok, In l ls /\ contains tok l = true /\
                 In tok [str ";"; str "{"; str "}"; str "#include"; str "std::"]).
  { repeat (apply orb_true_iff in H; destruct H as [H|H]);
      (apply contains_join_nl in H;
       [destruct H as (l & Hin & Hl); exists l; eexists; split; [exact Hin|];
        split; [exact Hl|]; cbn [In]; tauto
       | now apply no_LF_check | discriminate]). }
  destruct Hl as (l & tok & Hin & Hl & Htok). exists l. split; [exact Hin|].
  rewrite test_re_hint. cbn [In] in Htok.
  repeat (destruct Htok as [<-|Htok]; [rewrite Hl; rewrite ?orb_true_r; reflexivity|]).
  contradiction.
Qed.

Lemma fence_open_marker block : contains fence (fence_open block) = true.
Proof. unfold fence_open. auto with occurs. Qed.

Lemma pieces_fence_or_plain ps :
  Forall piece_ok ps ->
  (exists l, In l (emit_all ps) /\ contains fence l = true)
  \/ Forall (fun l => isCodeLine l = false) (emit_all ps).
Proof.
  induction 1 as [|p ps Hp _ IH]; [right; constructor|].
  destruct p as [l|block].
  - destruct IH as [(l' & Hin & Hl')|IH].
    + left. exists l'. split; [now right|exact Hl'].
    + right. constructor; assumption.
  - left. exists (fence_open block). split; [now left|apply fence_open_marker].
Qed.

Lemma staged_no_hint lines :
  test no_flags re_fence (join nl (group_lines lines)) = false ->
  test no_flags re_hint (join nl (group_lines lines)) = false.
Proof.
  intros Hf. unfold re_fence in Hf. rewrite test_lit in Hf.
  rewrite group_lines_pieces in *.
  destruct (pieces_fence_or_plain (pieces_ok lines)) as [(l & Hin & Hl)|Hplain].
  - rewrite (contains_join_in _ _ _ _ Hin Hl) in Hf. discriminate.
  - destruct (test no_flags re_hint (join nl (emit_all (pieces lines)))) eqn:E;
      [|reflexivity].
    apply hint_join in E. destruct E as (l & Hin & Hl).
    rewrite Forall_forall in Hplain.
    now rewrite (not_code_no_hint _ (Hplain l Hin)) in Hl.
Qed.

Lemma match_count_zero fl r s : test fl r s = false -> match_count fl r s = O.
Proof.
  unfold test, match_count, exec. cbn [count_from].
  destruct (exec_from fl r [] s); [discriminate|reflexivity].
Qed.

Lemma fallback_never_applies content : fallback_applies (staged content) = false.
Proof.
  unfold fallback_applies, staged.
  destruct (test no_flags re_fence (join nl (group_lines (cleanedLines content))))
    eqn:Hf; cbn [negb]; [reflexivity|].
  rewrite match_count_zero by now apply staged_no_hint.
  apply andb_false_r.
Qed.

Lemma normalize_fallback content :
  normalizeAIContent content =
  if fallback_applies (staged content)
  then wrap_whole (cleanedLines content) (staged content)
  else staged content.
Proof.
  unfold normalizeAIContent, fallback_applies, staged.
  destruct (negb _); [|reflexivity]. reflexivity.
Qed.

Lemma normalize_staged content : normalizeAIContent content = staged content.
Proof. now rewrite normalize_fallback, fallback_never_applies. Qed.

(** ** The artifact stripper *)

Lemma at_eol_end fl x : multiline fl = false -> at_eol fl x = true -> after x = [].
Proof.
  unfold at_eol. intros Hm. destruct (after x); [reflexivity|].
  rewrite Hm. discriminate.
Qed.

(** A match of the badge tail starts on whitespace and runs to the end. *)
Lemma badge_tail_match x z :
  rmatch flag_i re_badge_tail x Some = Some z ->
  after z = [] /\ exists w r, after x = w :: r /\ is_space w = true.
Proof.
  unfold re_badge_tail. cbn [seqs]. intros H. split.
  - cbn [rmatch] in H.
    apply rep_class_cont in H. destruct H as [y1 H].
    apply rmatch_cont in H. destruct H as [y2 H].
    destruct (at_wordb y2); [|discriminate].
    apply rep_class_cont in H. destruct H as [y3 H].
    destruct (at_eol flag_i y3) eqn:E; [|discriminate].
    injection H as <-. now apply (at_eol_end flag_i).
  - cbn [rmatch] in H. apply rep_class_pos_head in H.
    destruct H as (w & r & E & Hw). eauto.
Qed.

(** What the [map] does to a line: nothing, or it cuts the line before a
    whitespace. *)
Lemma strip_badge_cases l :
  strip_badge l = l
  \/ exists w r, is_space w = true /\ l = strip_badge l ++ w :: r.
Proof.
  unfold strip_badge, replace, exec.
  destruct (exec_from flag_i re_badge_tail [] l) as [[x y]|] eqn:E; [right|now left].
  apply exec_from_some in E. destruct E as (pre & post & -> & -> & H).
  apply badge_tail_match in H. destruct H as (Hy & w & r & Hx & Hw).
  cbn [before after] in *. subst post. rewrite Hy.
  exists w, r. split; [exact Hw|].
  now rewrite !app_nil_r, rev_involutive.
Qed.

Lemma strip_badge_prefix l : exists t, l = strip_badge l ++ t.
Proof.
  destruct (strip_badge_cases l) as [E|(w & r & _ & E)].
  - exists []. now rewrite E, app_nil_r.
  - eauto.
Qed.

Lemma cleanedLines_in content l :
  In l (cleanedLines content) ->
  exists l0, In l0 (split LF content) /\ keep_line l0 = true /\ l = strip_badge l0.
Proof.
  unfold cleanedLines. rewrite in_map_iff.
  intros (l0 & <- & Hin). apply filter_In in Hin. destruct Hin. eauto.
Qed.

(** ** Whole-word badges *)

Lemma char_match_letter a c :
  is_letter c = true -> char_match flag_i a c = true -> is_word a = true.
Proof.
  unfold char_match, is_letter; cbn [ignoreCase flag_i]. intros Hc H.
  char_facts.
  destruct ((97 <=? a) && (a <=? 122)) eqn:Ea, ((97 <=? c) && (c <=? 122)) eqn:Ec;
    char_facts.
Qed.


Lemma starts_length fl pat : forall s,
  starts fl pat s = true -> (length pat <= length s)%nat.
Proof.
  induction pat as [|c pat IH]; intros [|d s] H; simpl in *; try lia; try discriminate.
  apply andb_true_iff in H. destruct H as [_ H]. apply IH in H. lia.
Qed.


Lemma starts_letters pat : forall s,
  forallb is_letter pat = true -> starts flag_i pat s = true ->
  forallb is_word (firstn (length pat) s) = true.
Proof.
  induction pat as [|c pat IH]; intros [|d s] Hp H; simpl in *; try discriminate; auto.
  apply andb_true_iff in Hp. destruct Hp as [Hc Hp].
  apply andb_true_iff in H. destruct H as [Hd H].
  rewrite (char_match_letter _ _ Hc Hd). now apply IH.
Qed.





Lemma rtrim_cons c s : is_space c = false -> rtrim (c :: s) = c :: rtrim s.
Proof. intros H. simpl. rewrite H. destruct (rtrim s); reflexivity. Qed.







Lemma ltrim_app s t : ltrim s <> [] -> ltrim (s ++ t) = ltrim s ++ t.
Proof.
  induction s as [|c s IH]; simpl; [congruence|].
  destruct (is_space c); [exact IH|reflexivity].
Qed.


(** ** The lines of an output *)

Lemma detectLang_cases block :
  In (or_empty (detectLang block)) [[]; str "cpp"; str "bash"; str "ts"; str "python"].
Proof.
  unfold detectLang.
  destruct (test no_flags re_cpp _); [cbn; tauto|].
  destruct (test flag_m re_bash _); [cbn; tauto|].
  destruct (test no_flags re_ts _); [cbn; tauto|].
  destruct (test no_flags re_python _); cbn; tauto.
Qed.

(** What holds of the five fence lines holds of every opening fence. *)
Lemma fence_open_prop (P : jsstring -> Prop) :
  Forall P (map (app fence) [[]; str "cpp"; str "bash"; str "ts"; str "python"]) ->
  forall block, P (fence_open block).
Proof.
  intros H block. rewrite Forall_forall in H. apply H.
  unfold fence_open. apply in_map, detectLang_cases.
Qed.

Lemma emit_all_in ps l :
  In l (emit_all ps) ->
  In l (contents_all ps) \/ l = fence \/ exists block, l = fence_open block.
Proof.
  unfold emit_all, contents_all. induction ps as [|p ps IH]; [contradiction|].
  cbn [flat_map]. rewrite !in_app_iff. intros [H|H].
  - destruct p as [l0|block]; cbn [emit contents] in *.
    + now left; left.
    + destruct H as [<-|H]; [right; right; eauto|].
      apply in_app_iff in H. destruct H as [H|[<-|[]]]; [left; now left|right; now left].
  - destruct (IH H) as [H'|H']; [left; now right|now right].
Qed.

Lemma cleanedLines_no_LF content : Forall no_LF (cleanedLines content).
Proof.
  apply Forall_forall. intros l Hl.
  apply cleanedLines_in in Hl. destruct Hl as (l0 & Hin & _ & ->).
  pose proof (split_no_LF content) as H. rewrite Forall_forall in H.
  specialize (H l0 Hin). destruct (strip_badge_prefix l0) as [t E].
  intros Hlf. apply H. rewrite E. apply in_app_iff. now left.
Qed.

Lemma fence_no_LF : no_LF fence.
Proof. apply no_LF_check. reflexivity. Qed.

Lemma fence_open_no_LF block : no_LF (fence_open block).
Proof.
  apply fence_open_prop. repeat constructor; apply no_LF_check; reflexivity.
Qed.

Lemma group_lines_no_LF lines : Forall no_LF lines -> Forall no_LF (group_lines lines).
Proof.
  intros H. rewrite group_lines_pieces. apply Forall_forall. intros l Hl.
  apply emit_all_in in Hl. rewrite pieces_contents in Hl.
  destruct Hl as [Hl|[->|[block ->]]].
  - rewrite Forall_forall in H. now apply H.
  - apply fence_no_LF.
  - apply fence_open_no_LF.
Qed.

(** The lines of the result are the array [out], or the one empty line of an
    empty result. *)
Lemma normalize_lines content :
  split LF (normalizeAIContent content) =
  lines_of (group_lines (cleanedLines content)).
Proof.
  rewrite normalize_staged. unfold staged.
  apply split_join_lines, group_lines_no_LF, cleanedLines_no_LF.
Qed.

Lemma group_lines_plain lines :
  Forall (fun l => isCodeLine l = false) lines -> group_lines lines = lines.
Proof.
  induction 1 as [|l ls Hl _ IH]; [reflexivity|].
  now rewrite group_lines_prose, IH.
Qed.

Lemma plain_line_inv l :
  plain_line l = true ->
  isCodeLine l = false /\ keep_line l = true /\ strip_badge l = l.
Proof.
  unfold plain_line. rewrite !andb_true_iff, negb_true_iff, jseqb_eq. tauto.
Qed.

Lemma filter_map_id (f : jsstring -> bool) (g : jsstring -> jsstring) ls :
  Forall (fun l => f l = true /\ g l = l) ls -> map g (filter f ls) = ls.
Proof.
  induction 1 as [|l ls [Hf Hg] _ IH]; [reflexivity|].
  simpl. rewrite Hf. simpl. now rewrite Hg, IH.
Qed.

(** A text of plain lines is a fixed point. *)
Lemma normalize_plain doc :
  forallb plain_line (split LF doc) = true -> normalizeAIContent doc = doc.
Proof.
  intros H. rewrite forallb_forall in H.
  rewrite normalize_staged. unfold staged, cleanedLines.
  rewrite filter_map_id.
  - rewrite group_lines_plain; [apply join_split|].
    apply Forall_forall. intros l Hl. now apply plain_line_inv, H.
  - apply Forall_forall. intros l Hl. apply H, plain_line_inv in Hl. tauto.
Qed.

(** ** Fence markers *)

Lemma fences_paired_plain ls rest inside :
  Forall (fun l => is_marker l = false) ls ->
  fences_paired inside (ls ++ rest) = fences_paired inside rest.
Proof.
  induction 1 as [|l ls Hl _ IH]; [reflexivity|].
  simpl. now rewrite Hl.
Qed.

Lemma marker_count_app ls rest :
  marker_count (ls ++ rest) = (marker_count ls + marker_count rest)%nat.
Proof. unfold marker_count. now rewrite filter_app, length_app. Qed.

Lemma marker_count_plain ls :
  Forall (fun l => is_marker l = false) ls -> marker_count ls = O.
Proof.
  unfold marker_count. induction 1 as [|l ls Hl _ IH]; [reflexivity|].
  simpl. now rewrite Hl.
Qed.

Lemma emit_markers p rest :
  Forall (fun l => is_marker l = false) (contents p) ->
  fences_paired false (emit p ++ rest) = fences_paired false rest
  /\ Nat.even (marker_count (emit p ++ rest)) = Nat.even (marker_count rest).
Proof.
  intros H. destruct p as [l|block]; cbn [emit contents] in *.
  - split; [now apply fences_paired_plain|].
    now rewrite marker_count_app, marker_count_plain.
  - assert (Ho : is_marker (fence_open block) = true) by apply fence_open_marker.
    assert (Hc : is_marker fence = true) by reflexivity.
    split.
    + cbn [app fences_paired]. rewrite Ho, <- app_assoc.
      rewrite fences_paired_plain by assumption.
      cbn [app fences_paired]. now rewrite Hc, jseqb_refl.
    + change (fence_open block :: block ++ [fence]) with
        ([fence_open block] ++ block ++ [fence]).
      rewrite !marker_count_app, (marker_count_plain H).
      unfold marker_count at 1 2. cbn [filter]. rewrite Ho, Hc. reflexivity.
Qed.

Lemma pieces_markers ps :
  Forall (fun l => is_marker l = false) (contents_all ps) ->
  fences_paired false (emit_all ps) = true
  /\ Nat.even (marker_count (emit_all ps)) = true.
Proof.
  unfold contents_all, emit_all. induction ps as [|p ps IH]; intros H.
  - split; reflexivity.
  - cbn [flat_map] in *. apply Forall_app in H. destruct H as [Hp Hps].
    destruct (emit_markers p (flat_map emit ps) Hp) as [-> ->]. now apply IH.
Qed.

Lemma cleanedLines_no_marker content :
  (forall l, In l (split LF content) -> contains fence l = false) ->
  Forall (fun l => is_marker l = false) (cleanedLines content).
Proof.
  intros H. apply Forall_forall. intros l Hl.
  apply cleanedLines_in in Hl. destruct Hl as (l0 & Hin & _ & ->).
  destruct (strip_badge_prefix l0) as [t E].
  unfold is_marker. destruct (contains fence (strip_badge l0)) eqn:Hc; [|reflexivity].
  apply (contains_app_l _ _ t) in Hc. rewrite <- E in Hc.
  now rewrite (H l0 Hin) in Hc.
Qed.

Lemma test_re_cpp_include text :
  contains (str "#include") text = true -> test no_flags re_cpp text = true.
Proof.
  intros H. unfold re_cpp. cbn [alts]. now rewrite test_alt, test_lit, H.
Qed.

(** * The statements of the specification *)

(** ** Existing fences *)

(** C1, as stated, fails: the fenced snippet [int x = 1;] comes back with a
    second pair of fences inside the first, since the loop has no notion of
    an existing fence and classifies the fenced line like any other. *)
Lemma fenced_input_rewrapped :
  let content := unlines [fence; str "int x = 1;"; fence] in
  has_fenced_block content
  /\ normalizeAIContent content =
     unlines [fence; fence; str "int x = 1;"; fence; fence]
  /\ normalizeAIContent content <> content.
Proof.
  cbv zeta. split; [|split].
  - exists [], [], [str "int x = 1;"], []. split; [reflexivity|].
    split; [reflexivity|]. repeat constructor.
  - vm_compute. reflexivity.
  - vm_compute. discriminate.
Qed.

(** C1, amended: an input that contains a well-formed fenced block and whose
    lines, the fence lines and the fenced lines included, are all plain (not
    code-like for [isCodeLine], kept by the filter, left alone by the badge
    pattern) is returned as it is. *)
Theorem fenced_plain_input_unchanged content :
  has_fenced_block content ->
  forallb plain_line (split LF content) = true ->
  normalizeAIContent content = content.
Proof. intros _. apply normalize_plain. Qed.

Lemma fenced_plain_input_unchanged_witness :
  let content := unlines [str "Look:"; fence ++ str "text"; str "hello world"; fence] in
  has_fenced_block content
  /\ forallb plain_line (split LF content) = true
  /\ normalizeAIContent content = content.
Proof.
  cbv zeta.
  assert (Hb : has_fenced_block
                 (unlines [str "Look:"; fence ++ str "text"; str "hello world"; fence])).
  { exists [str "Look:"], (str "text"), [str "hello world"], [].
    split; [reflexivity|]. split; [reflexivity|]. repeat constructor. }
  assert (Hp : forallb plain_line
                 (split LF (unlines [str "Look:"; fence ++ str "text";
                                     str "hello world"; fence])) = true)
    by (vm_compute; reflexivity).
  split; [exact Hb|]. split; [exact Hp|].
  exact (fenced_plain_input_unchanged Hb Hp).
Defined.

(** ** Idempotence *)

(** C2, as stated, fails: the output for [x = 1;] is a fenced block, and
    normalising that output fences the line once more. *)
Lemma normalize_twice_differs :
  let once := normalizeAIContent (str "x = 1;") in
  once = unlines [fence; str "x = 1;"; fence]
  /\ normalizeAIContent once = unlines [fence; fence; str "x = 1;"; fence; fence]
  /\ normalizeAIContent once <> once.
Proof.
  cbv zeta. split; [|split].
  - vm_compute. reflexivity.
  - vm_compute. reflexivity.
  - vm_compute. discriminate.
Qed.

(** C2, amended: a document all of whose lines are plain is a fixed point of
    [normalizeAIContent], so normalising it twice gives what normalising it
    once gives. *)
Theorem normalize_idempotent_on_plain doc :
  forallb plain_line (split LF doc) = true ->
  normalizeAIContent doc = doc
  /\ normalizeAIContent (normalizeAIContent doc) = normalizeAIContent doc.
Proof.
  intros H. pose proof (normalize_plain doc H) as E.
  split; [exact E|]. now rewrite !E.
Qed.

Lemma normalize_idempotent_on_plain_witness :
  let doc := unlines [str "Hello, how are you?"; str ""; str "Fine."] in
  forallb plain_line (split LF doc) = true
  /\ normalizeAIContent doc = doc
  /\ normalizeAIContent (normalizeAIContent doc) = normalizeAIContent doc.
Proof.
  cbv zeta.
  assert (Hp : forallb plain_line
                 (split LF (unlines [str "Hello, how are you?"; str ""; str "Fine."]))
               = true) by (vm_compute; reflexivity).
  split; [exact Hp|]. exact (normalize_idempotent_on_plain _ Hp).
Defined.

(** ** Partition *)

(** C3: the output is the pieces of the artifact-stripped lines, each code
    block between the two fence lines the loop adds and each prose line as it
    is; the contents of the pieces, in order, are the artifact-stripped lines.
    The pieces are prose lines that are not code-like and maximal runs of
    code-like lines.  The whole-response fence changes nothing here: its
    condition is never met ([fallback_never_applies]). *)
Theorem partition_invariant content :
  let ps := pieces (cleanedLines content) in
  normalizeAIContent content = join nl (emit_all ps)
  /\ contents_all ps = cleanedLines content
  /\ Forall piece_ok ps
  /\ no_adjacent_code ps = true.
Proof.
  cbv zeta. split; [|split; [|split]].
  - rewrite normalize_staged. unfold staged. now rewrite group_lines_pieces.
  - apply pieces_contents.
  - apply pieces_ok.
  - apply pieces_maximal.
Qed.

(** ** The language sniffer *)

(** C4, at a failing input: a block of two code-like lines whose second line
    starts with [import ], and on which neither the cpp rule nor the bash
    rule matches, gets no tag.  The pattern of rule 3 has no [m] flag (the
    one of rule 2 has it), so its [^] holds at the start of the blob only. *)
Lemma import_on_second_line_untagged :
  let block := [str "const a = 1;"; str "import x from 'y';"] in
  forallb isCodeLine block = true
  /\ test no_flags re_cpp (join nl block) = false
  /\ test flag_m re_bash (join nl block) = false
  /\ existsb (begins_after_space (str "import ")) block = true
  /\ detectLang block = None
  /\ detectLang (rev block) = Some (str "ts")
  /\ normalizeAIContent (unlines block) = unlines ([fence] ++ block ++ [fence]).
Proof. cbv zeta. repeat split; vm_compute; reflexivity. Qed.

(** C8: a block whose blob contains [#include] is tagged [cpp], whether or
    not one of its lines starts with [import ]. *)
Theorem detectLang_cpp_first block :
  contains (str "#include") (join nl block) = true ->
  (exists l, In l block /\ starts_with (str "import ") l = true) ->
  detectLang block = Some (str "cpp") /\ detectLang block <> Some (str "ts").
Proof.
  intros H _. unfold detectLang. rewrite test_re_cpp_include by assumption.
  split; [reflexivity|discriminate].
Qed.

Lemma detectLang_cpp_first_witness :
  let block := [str "#include <vector>"; str "import std;"] in
  contains (str "#include") (join nl block) = true
  /\ (exists l, In l block /\ starts_with (str "import ") l = true)
  /\ detectLang block = Some (str "cpp") /\ detectLang block <> Some (str "ts").
Proof.
  cbv zeta.
  assert (H1 : contains (str "#include")
                 (join nl [str "#include <vector>"; str "import std;"]) = true)
    by (vm_compute; reflexivity).
  assert (H2 : exists l, In l [str "#include <vector>"; str "import std;"]
                         /\ starts_with (str "import ") l = true).
  { exists (str "import std;"). split; [right; left; reflexivity|].
    vm_compute; reflexivity. }
  split; [exact H1|]. split; [exact H2|].
  exact (detectLang_cpp_first _ H1 H2).
Defined.

(** ** The classifier *)

(** C5: [isCodeLine] answers true exactly on the lines that are not empty
    after trimming and show one of the listed signals, and answers false on
    every empty or whitespace-only line. *)
Theorem code_line_classifier line :
  (isCodeLine line = true <->
   nonempty_after_trim line = true /\ code_signal line = true)
  /\ (forallb is_space line = true -> isCodeLine line = false).
Proof.
  split.
  - rewrite isCodeLine_spec. unfold spec_code_like. apply andb_true_iff.
  - intros H. unfold isCodeLine. now rewrite trim_all_space.
Qed.

Lemma code_line_classifier_witness :
  forallb is_space (str "    ") = true /\ isCodeLine (str "    ") = false.
Proof.
  assert (H : forallb is_space (str "    ") = true) by (vm_compute; reflexivity).
  split; [exact H|]. exact (proj2 (code_line_classifier (str "    ")) H).
Defined.

(** ** The whole-response fence *)






(** ** Scenario *)

(** C9: the two prose lines come out as they are and the three lines between
    them come out, in order, inside one fence opened with [```cpp]. *)
Theorem scenario_int_main :
  let input := unlines [str "Here is code:"; str "int main() {";
                        str "    return 0;"; str "}"; str "Done."] in
  normalizeAIContent input =
    unlines [str "Here is code:"; str "```cpp"; str "int main() {";
             str "    return 0;"; str "}"; str "```"; str "Done."]
  /\ pieces (cleanedLines input) =
     [Prose (str "Here is code:");
      Code [str "int main() {"; str "    return 0;"; str "}"];
      Prose (str "Done.")]
  /\ fence_open [str "int main() {"; str "    return 0;"; str "}"] = str "```cpp".
Proof. cbv zeta. repeat split; vm_compute; reflexivity. Qed.

(** ** Balanced fences *)

(** C10: when no line of the input contains three backticks, the lines of the
    output that do come in pairs, an opening fence and then the bare closing
    fence, so their number is even. *)
Theorem fences_balanced content :
  (forall l, In l (split LF content) -> contains fence l = false) ->
  let out := split LF (normalizeAIContent content) in
  Nat.even (marker_count out) = true /\ fences_paired false out = true.
Proof.
  intros H. cbv zeta. rewrite normalize_lines, group_lines_pieces.
  destruct (pieces_markers (pieces (cleanedLines content))) as [Hp He].
  { rewrite pieces_contents. now apply cleanedLines_no_marker. }
  destruct (emit_all (pieces (cleanedLines content))) as [|l ls].
  - split; reflexivity.
  - cbn [lines_of]. now split.
Qed.

Lemma fences_balanced_witness :
  let content := unlines [str "hi"; str "x = 1;"; str "y = 2;"; str "bye"; str "}"] in
  Nat.even (marker_count (split LF (normalizeAIContent content))) = true
  /\ fences_paired false (split LF (normalizeAIContent content)) = true.
Proof.
  cbv zeta. apply fences_balanced.
  intros l Hl. vm_compute in Hl.
  repeat (destruct Hl as [<-|Hl]; [vm_compute; reflexivity|]). contradiction.
Defined.

(** ** Artifact removal *)
















(** * Further properties of the code *)

(** ** [CodeBlock]: the text *)

Lemma final_newline_at b c a :
  rmatch no_flags re_final_newline (State b (c :: a)) Some =
  if c =? LF
  then match a with [] => Some (State (c :: b) []) | _ :: _ => None end
  else None.
Proof.
  unfold re_final_newline. cbn [seqs rmatch after before].
  unfold char_match; cbn [ignoreCase no_flags].
  destruct (c =? LF); [|reflexivity].
  unfold at_eol; cbn [after multiline no_flags andb]. destruct a; reflexivity.
Qed.

Lemma final_newline_found : forall s b,
  exec_from no_flags re_final_newline b (s ++ [LF]) =
  Some (State (rev s ++ b) [LF], State (LF :: rev s ++ b) []).
Proof.
  induction s as [|c s IH]; intros b.
  - cbn [app exec_from rev]. rewrite final_newline_at, N.eqb_refl. reflexivity.
  - cbn [app exec_from]. rewrite final_newline_at.
    assert (E : (if c =? LF
                 then match s ++ [LF] with
                      | [] => Some (State (c :: b) [])
                      | _ :: _ => None
                      end
                 else None) = None).
    { destruct (c =? LF); [|reflexivity]. destruct s; reflexivity. }
    rewrite E, IH. cbn [rev]. now rewrite <- !app_assoc.
Qed.

Lemma ends_with_LF_cons c s : s <> [] -> ends_with_LF (c :: s) = ends_with_LF s.
Proof.
  intros Hne. unfold ends_with_LF. cbn [rev].
  destruct (rev s) as [|d t] eqn:E; [|reflexivity].
  apply (f_equal (@rev char)) in E. rewrite rev_involutive in E. now subst.
Qed.

Lemma final_newline_absent : forall s b,
  ends_with_LF s = false -> exec_from no_flags re_final_newline b s = None.
Proof.
  induction s as [|c s IH]; intros b H; [reflexivity|].
  cbn [exec_from]. rewrite final_newline_at.
  destruct s as [|d s].
  - unfold ends_with_LF in H; cbn [rev app] in H. now rewrite H.
  - rewrite ends_with_LF_cons in H by discriminate.
    rewrite (IH (c :: b) H). destruct (c =? LF); reflexivity.
Qed.

Lemma join_nil_concat ls : join [] ls = concat ls.
Proof.
  induction ls as [|l ls IH]; [reflexivity|].
  destruct ls as [|l' ls].
  - cbn. now rewrite app_nil_r.
  - rewrite join_cons by discriminate. cbn [app concat]. now rewrite IH.
Qed.

Lemma strip_final_newline s :
  replace no_flags re_final_newline [] (s ++ nl) = s.
Proof.
  unfold replace, exec, nl. rewrite final_newline_found. cbn [before after app].
  now rewrite !app_nil_r, rev_involutive.
Qed.

Lemma keep_without_final_newline s :
  ends_with_LF s = false -> replace no_flags re_final_newline [] s = s.
Proof. intros H. unfold replace, exec. now rewrite final_newline_absent. Qed.

(** X1: unless [inline] is set, the text that [CodeBlock] shows and copies
    for a string child is the child without its last line feed, and one line
    feed only is taken off: a text that ends with two keeps one.  With
    [inline] the child is shown as it came, line feed included, and there is
    nothing to copy. *)
Theorem CodeBlock_text_drops_final_newline inline className s :
  shown (CodeBlock inline className (NString (s ++ nl))) =
    NString (if is_inline inline then s ++ nl else s)
  /\ text_of (CodeBlock inline className (NString (s ++ nl))) =
     (if is_inline inline then None else Some s).
Proof.
  unfold CodeBlock. destruct (is_inline inline); cbn [shown text_of].
  - auto.
  - now rewrite strip_final_newline.
Qed.

(** X2: a string child that does not end with a line feed is shown as it is,
    with [inline] or without, and copied as it is from a block. *)
Theorem CodeBlock_text_unchanged inline className s :
  ends_with_LF s = false ->
  shown (CodeBlock inline className (NString s)) = NString s
  /\ text_of (CodeBlock inline className (NString s)) =
     (if is_inline inline then None else Some s).
Proof.
  intros H. unfold CodeBlock. destruct (is_inline inline); cbn [shown text_of].
  - auto.
  - now rewrite keep_without_final_newline.
Qed.

Lemma CodeBlock_text_unchanged_witness :
  ends_with_LF (str "int x = 1;") = false
  /\ shown (CodeBlock None (Some (str "language-cpp")) (NString (str "int x = 1;")))
     = NString (str "int x = 1;")
  /\ text_of (CodeBlock None (Some (str "language-cpp")) (NString (str "int x = 1;")))
     = Some (str "int x = 1;").
Proof.
  assert (H : ends_with_LF (str "int x = 1;") = false) by (vm_compute; reflexivity).
  split; [exact H|].
  exact (@CodeBlock_text_unchanged None (Some (str "language-cpp")) _ H).
Defined.

(** X3: unless [inline] is set, of an array of children only the strings at
    its top level count, in their order: the others (elements, nested arrays)
    add nothing to the text, and an array of strings gives the text of their
    concatenation.  With [inline] the array is shown as it came. *)
Theorem CodeBlock_text_of_array inline className :
  (forall cs,
     shown (CodeBlock inline className (NArray cs)) =
     if is_inline inline then NArray cs
     else shown (CodeBlock inline className (NArray (filter is_NString cs))))
  /\ (forall parts,
        shown (CodeBlock inline className (NArray (map NString parts))) =
        if is_inline inline then NArray (map NString parts)
        else shown (CodeBlock inline className (NString (concat parts)))).
Proof.
  unfold CodeBlock. destruct (is_inline inline); cbn [shown]; [auto|]. split.
  - intros cs. do 2 f_equal. rewrite !join_nil_concat.
    induction cs as [|c cs IH]; [reflexivity|].
    destruct c as [s|ds|]; cbn [filter is_NString map concat child_text];
      rewrite IH; reflexivity.
  - intros parts. do 2 f_equal.
    rewrite join_nil_concat, map_map. cbn [child_text]. now rewrite map_id.
Qed.

(** ** [CodeBlock]: the language *)

Lemma replace_text_eq pat repl s :
  replace_text pat repl s =
  if starts_with pat s then repl ++ skipn (length pat) s
  else match s with
       | [] => []
       | c :: s' => c :: replace_text pat repl s'
       end.
Proof. destruct s; reflexivity. Qed.

Lemma replace_text_absent pat repl : forall s,
  contains pat s = false -> replace_text pat repl s = s.
Proof.
  induction s as [|c s IH]; intros H; rewrite replace_text_eq;
    cbn [contains] in H; apply orb_false_iff in H; destruct H as [-> H].
  - reflexivity.
  - now rewrite IH.
Qed.

(** X4: unless [inline] is set, the class [language-] followed by a tag gives
    the tag as the language of the badge, and no badge for the empty tag.
    With [inline] there is no badge and the class name goes into the class of
    the element as it came. *)
Theorem CodeBlock_language_of_class inline lang children :
  badge_of (CodeBlock inline (Some (str "language-" ++ lang)) children) =
    (if is_inline inline then None else badge_for lang)
  /\ (is_inline inline = true ->
      class_of (CodeBlock inline (Some (str "language-" ++ lang)) children) =
      str "bg-gray-100 rounded px-1 " ++ str "language-" ++ lang).
Proof.
  unfold CodeBlock. destruct (is_inline inline); cbn [badge_of class_of or_empty].
  - auto.
  - split; [|discriminate]. rewrite replace_text_eq.
    rewrite starts_self. cbn [app].
    rewrite skipn_app, skipn_all, Nat.sub_diag. reflexivity.
Qed.

Lemma CodeBlock_language_of_class_witness :
  class_of (CodeBlock (Some true) (Some (str "language-" ++ str "cpp")) NOther) =
  str "bg-gray-100 rounded px-1 " ++ str "language-" ++ str "cpp".
Proof.
  exact (proj2 (@CodeBlock_language_of_class (Some true) (str "cpp") NOther) eq_refl).
Defined.

(** X5: a class name in which [language-] does not occur is used as it is:
    as the language of the badge of a block (no badge when it is empty), and
    inside the class of the element in both cases. *)
Theorem CodeBlock_language_other inline className children :
  contains (str "language-") className = false ->
  badge_of (CodeBlock inline (Some className) children) =
    (if is_inline inline then None else badge_for className)
  /\ class_of (CodeBlock inline (Some className) children) =
     (if is_inline inline then str "bg-gray-100 rounded px-1 " ++ className
      else className ++ str " overflow-x-auto rounded-lg p-3").
Proof.
  intros H. unfold CodeBlock.
  destruct (is_inline inline); cbn [badge_of class_of or_empty]; [auto|].
  now rewrite replace_text_absent.
Qed.

Lemma CodeBlock_language_other_witness :
  contains (str "language-") (str "hljs") = false
  /\ badge_of (CodeBlock None (Some (str "hljs")) NOther) = Some (str "hljs")
  /\ class_of (CodeBlock None (Some (str "hljs")) NOther) =
     str "hljs" ++ str " overflow-x-auto rounded-lg p-3".
Proof.
  assert (H : contains (str "language-") (str "hljs") = false)
    by (vm_compute; reflexivity).
  split; [exact H|]. exact (@CodeBlock_language_other None _ NOther H).
Defined.

Lemma starts_within fl pat : forall x y,
  (length pat <= length x)%nat ->
  starts fl pat (x ++ y) = true -> starts fl pat x = true.
Proof.
  induction pat as [|c pat IH]; intros x y Hlen H; [reflexivity|].
  destruct x as [|d x]; [simpl in Hlen; lia|].
  cbn [app starts] in *. apply andb_true_iff in H. destruct H as [-> H].
  cbn [andb]. apply (IH x y); [simpl in Hlen; lia|exact H].
Qed.

Lemma replace_text_first pat pre post :
  pat <> [] ->
  contains pat (pre ++ removelast pat) = false ->
  replace_text pat [] (pre ++ pat ++ post) = pre ++ post.
Proof.
  intros Hne. induction pre as [|c pre IH]; intros H.
  - cbn [app]. rewrite replace_text_eq, starts_self. cbn [app].
    now rewrite skipn_app, skipn_all, Nat.sub_diag.
  - cbn [app contains] in H. apply orb_false_iff in H. destruct H as [Hs Hc].
    cbn [app]. rewrite replace_text_eq.
    destruct (starts_with pat (c :: pre ++ pat ++ post)) eqn:E.
    + exfalso. rewrite (app_removelast_last 0 Hne) in E at 2.
      rewrite <- app_assoc in E.
      change (c :: pre ++ removelast pat ++ [last pat 0] ++ post)
        with ((c :: pre) ++ removelast pat ++ [last pat 0] ++ post) in E.
      rewrite app_assoc in E. unfold starts_with in *.
      apply starts_within in E; [cbn [app] in E; congruence|].
      rewrite length_app. cbn [length].
      pose proof (f_equal (@length char) (app_removelast_last 0 Hne)) as L.
      rewrite length_app in L. cbn [length] in L. unfold char in *. lia.
    + now rewrite IH.
Qed.

(** X6: unless [inline] is set, when the class name holds more than the
    language class, only the first [language-] is taken out and the rest
    stays in the language of the badge: [hljs language-cpp] gives
    [hljs cpp]. *)
Theorem CodeBlock_language_first_occurrence inline pre post children :
  contains (str "language-") (pre ++ removelast (str "language-")) = false ->
  badge_of (CodeBlock inline (Some (pre ++ str "language-" ++ post)) children) =
  (if is_inline inline then None else badge_for (pre ++ post)).
Proof.
  intros H. unfold CodeBlock.
  destruct (is_inline inline); cbn [badge_of or_empty]; [reflexivity|].
  rewrite replace_text_first; [reflexivity|discriminate|exact H].
Qed.

Lemma CodeBlock_language_first_occurrence_witness :
  contains (str "language-") (str "hljs " ++ removelast (str "language-")) = false
  /\ badge_of (CodeBlock (Some false)
                 (Some (str "hljs " ++ str "language-" ++ str "cpp")) NOther) =
     Some (str "hljs " ++ str "cpp").
Proof.
  assert (H : contains (str "language-")
                (str "hljs " ++ removelast (str "language-")) = false)
    by (vm_compute; reflexivity).
  split; [exact H|].
  exact (@CodeBlock_language_first_occurrence (Some false) _ (str "cpp") NOther H).
Defined.

(** ** The reply of the service *)

(** X7: on a body of the expected shape, whatever else its objects and arrays
    hold, the reply is the text of the first part of the first candidate, and
    the apology when that text is empty. *)
Theorem aiReply_expected_shape props cands cprops kprops parts pprops t :
  lookup (str "candidates") props = Some (JArr (JObj cprops :: cands)) ->
  lookup (str "content") cprops = Some (JObj kprops) ->
  lookup (str "parts") kprops = Some (JArr (JObj pprops :: parts)) ->
  lookup (str "text") pprops = Some (JStr t) ->
  aiReply (JObj props) = JStr (match t with [] => sorry_text | _ => t end).
Proof.
  intros H1 H2 H3 H4. unfold aiReply, reply_text.
  cbn [member]. rewrite H1. cbn [first head member]. rewrite H2.
  cbn [member]. rewrite H3. cbn [first head member]. rewrite H4.
  destruct t; reflexivity.
Qed.

Lemma aiReply_expected_shape_witness :
  let part := [(str "text", JStr (str "Hi there"))] in
  let content := [(str "parts", JArr [JObj part]); (str "role", JStr (str "model"))] in
  let cand := [(str "content", JObj content); (str "finishReason", JStr (str "STOP"))] in
  let body := [(str "candidates", JArr [JObj cand]); (str "modelVersion", JStr (str "x"))] in
  aiReply (JObj body) = JStr (str "Hi there").
Proof.
  cbv zeta.
  eapply (@aiReply_expected_shape _ _ _ _ _ _ (str "Hi there")); reflexivity.
Defined.

(** X8: the reply is never falsy, so never the empty string: it is the value
    found at the end of the path, or the apology. *)
Theorem aiReply_truthy data :
  truthy (Some (aiReply data)) = true
  /\ (aiReply data = JStr sorry_text \/ reply_text data = Some (aiReply data)).
Proof.
  unfold aiReply. destruct (reply_text data) as [v|].
  - destruct (truthy (Some v)) eqn:E.
    + split; [exact E|now right].
    + split; [reflexivity|now left].
  - split; [reflexivity|now left].
Qed.

(** X9: a body that is no object, or an object without the property
    [candidates] as an error body is, gives the apology. *)
Theorem aiReply_no_candidates data :
  match data with
  | JObj props => lookup (str "candidates") props = None
  | _ => True
  end ->
  aiReply data = JStr sorry_text.
Proof.
  intros H. unfold aiReply, reply_text.
  destruct data as [|b|x|t|xs|props]; cbn [member first]; try reflexivity.
  now rewrite H.
Qed.

Lemma aiReply_no_candidates_witness :
  aiReply (JObj [(str "error", JObj [(str "message", JStr (str "API key not valid"))])])
  = JStr sorry_text.
Proof. apply aiReply_no_candidates. reflexivity. Defined.

(** ** The chat *)

Lemma handleSend_request_some s :
  trim (input s) <> [] ->
  handleSend_request s =
  Some ({| currentChat := currentChat s ++ [{| role := User; content := JStr (input s) |}];
           input := []; loading := true |},
        request_body (input s)).
Proof.
  intros H. unfold handleSend_request. destruct (trim (input s)); [congruence|reflexivity].
Qed.

Lemma handleSend_request_inv s s' body :
  handleSend_request s = Some (s', body) ->
  trim (input s) <> []
  /\ s' = {| currentChat := currentChat s ++ [{| role := User; content := JStr (input s) |}];
             input := []; loading := true |}
  /\ body = request_body (input s).
Proof.
  unfold handleSend_request. destruct (trim (input s)) eqn:E; [discriminate|].
  intros H. injection H as <- <-. repeat split. discriminate.
Qed.

(** X10: on an input that is empty or white space only, [handleSend] sends
    nothing and leaves the chat, the input box and the loading flag as they
    are. *)
Theorem handleSend_blank s :
  trim (input s) = [] ->
  handleSend_request s = None /\ forall o, handleSend s o = s.
Proof.
  intros H. unfold handleSend, handleSend_request. rewrite H. auto.
Qed.

Lemma handleSend_blank_witness :
  let s := {| currentChat := []; input := str "   "; loading := false |} in
  trim (input s) = [] /\ handleSend_request s = None /\ forall o, handleSend s o = s.
Proof.
  cbv zeta.
  assert (H : trim (input {| currentChat := []; input := str "   "; loading := false |})
              = []) by reflexivity.
  split; [exact H|]. exact (handleSend_blank _ H).
Defined.

(** X11: a call of [handleSend] on an input that is not blank sends the input
    as typed, not trimmed, and puts it at the end of the chat; an answer adds
    one message of the service after it, a failure adds nothing, so the
    question stays without an answer and without an error message.  Either
    way the input box is empty and the loading flag off at the end. *)
Theorem handleSend_exchange s :
  trim (input s) <> [] ->
  let question := {| role := User; content := JStr (input s) |} in
  (exists s', handleSend_request s = Some (s', request_body (input s)))
  /\ (forall data,
        handleSend s (Resolved data) =
        {| currentChat :=
             currentChat s ++ [question; {| role := Ai; content := aiReply data |}];
           input := []; loading := false |})
  /\ handleSend s Rejected =
     {| currentChat := currentChat s ++ [question]; input := []; loading := false |}.
Proof.
  intros H. cbv zeta. unfold handleSend. rewrite (handleSend_request_some _ H).
  split; [eauto|]. split; [|reflexivity].
  intros data. unfold handleSend_settle. cbn [currentChat input].
  now rewrite <- app_assoc.
Qed.

Lemma handleSend_exchange_witness :
  let s := {| currentChat := []; input := str " hi "; loading := false |} in
  handleSend s Rejected =
  {| currentChat := [{| role := User; content := JStr (str " hi ") |}];
     input := []; loading := false |}.
Proof.
  cbv zeta.
  assert (H : trim (input {| currentChat := []; input := str " hi "; loading := false |})
              <> []) by (vm_compute; discriminate).
  exact (proj2 (proj2 (handleSend_exchange _ H))).
Defined.

Lemma message_ok_question text :
  trim text <> [] -> message_ok {| role := User; content := JStr text |} = true.
Proof. intros H. unfold message_ok; cbn. destruct (trim text); congruence. Qed.

Lemma message_ok_answer data :
  message_ok {| role := Ai; content := aiReply data |} = true.
Proof. unfold message_ok; cbn [role content]. apply aiReply_truthy. Qed.

Lemma step_keeps_messages s s' :
  step s s' ->
  forallb message_ok (currentChat s) = true ->
  forallb message_ok (currentChat s') = true.
Proof.
  intros Hstep Hok. destruct Hstep as [s text|s s' body Hreq|s o|s].
  - exact Hok.
  - apply handleSend_request_inv in Hreq. destruct Hreq as (Hne & -> & _).
    cbn [currentChat]. rewrite forallb_app, Hok. cbn [forallb].
    now rewrite message_ok_question.
  - destruct o as [|data]; cbn [handleSend_settle currentChat]; [exact Hok|].
    rewrite forallb_app, Hok. cbn [forallb]. now rewrite message_ok_answer.
  - reflexivity.
Qed.

(** X12: whatever the user types and sends, whatever the service answers and
    whenever, every question in the chat is a string that is not blank and
    every answer is a value that is not falsy (not [undefined], [null], the
    empty string, [false], zero or NaN). *)
Theorem chat_messages_ok s :
  reachable s -> forallb message_ok (currentChat s) = true.
Proof.
  induction 1 as [|s s' _ IH Hstep]; [reflexivity|].
  exact (step_keeps_messages Hstep IH).
Qed.

Lemma chat_messages_ok_witness :
  let s := {| currentChat := [{| role := User; content := JStr (str "hi") |}];
              input := []; loading := true |} in
  reachable s /\ forallb message_ok (currentChat s) = true.
Proof.
  cbv zeta.
  assert (H : reachable
                {| currentChat := [{| role := User; content := JStr (str "hi") |}];
                   input := []; loading := true |}).
  { eapply reach_step; [eapply reach_step; [apply reach_initial|]|].
    - apply (step_input initial (str "hi")).
    - eapply step_request. reflexivity. }
  split; [exact H|]. exact (chat_messages_ok H).
Defined.

(** X13: no event changes or removes a message of the chat, but the new-chat
    button, which removes them all: after any other event the chat is the
    chat before it with one message more at most. *)
Theorem events_extend_chat e s :
  if is_NewChat e then currentChat (handle e s) = []
  else exists more,
         currentChat (handle e s) = currentChat s ++ more
         /\ (length more <= 1)%nat.
Proof.
  destruct e as [text| |o|]; cbn [is_NewChat handle].
  - exists []. cbn. rewrite app_nil_r. auto.
  - destruct (handleSend_request s) as [[s' body]|] eqn:Hreq.
    + apply handleSend_request_inv in Hreq. destruct Hreq as (_ & -> & _).
      eexists. cbn [currentChat]. split; [reflexivity|]. cbn; lia.
    + exists []. rewrite app_nil_r. cbn; auto.
  - destruct o as [|data]; cbn [handleSend_settle currentChat].
    + exists []. rewrite app_nil_r. cbn; auto.
    + eexists. split; [reflexivity|]. cbn; lia.
  - reflexivity.
Qed.

(** X14: [handleSend] does not look at the loading flag.  When a second
    question is sent before the first is answered, the first answer turns the
    flag off while the second is still awaited, and the chat ends with the two
    questions followed by the two answers in the order they came. *)
Theorem two_questions_in_flight s s1 b1 text2 s2 b2 d1 d2 :
  handleSend_request s = Some (s1, b1) ->
  handleSend_request (setInput text2 s1) = Some (s2, b2) ->
  let s3 := handleSend_settle (Resolved d1) s2 in
  loading s2 = true /\ loading s3 = false
  /\ currentChat (handleSend_settle (Resolved d2) s3) =
     currentChat s
     ++ [{| role := User; content := JStr (input s) |};
         {| role := User; content := JStr text2 |};
         {| role := Ai; content := aiReply d1 |};
         {| role := Ai; content := aiReply d2 |}].
Proof.
  intros H1 H2. cbv zeta.
  apply handleSend_request_inv in H1. destruct H1 as (_ & -> & _).
  apply handleSend_request_inv in H2. destruct H2 as (_ & -> & _).
  cbn. split; [reflexivity|]. split; [reflexivity|].
  now rewrite <- !app_assoc.
Qed.

Lemma two_questions_in_flight_witness :
  let s := {| currentChat := []; input := str "one"; loading := false |} in
  exists s1 b1 s2 b2,
    handleSend_request s = Some (s1, b1)
    /\ handleSend_request (setInput (str "two") s1) = Some (s2, b2)
    /\ loading s2 = true
    /\ loading (handleSend_settle (Resolved JNull) s2) = false.
Proof.
  cbv zeta.
  assert (H1 : handleSend_request
                 {| currentChat := []; input := str "one"; loading := false |} =
               Some ({| currentChat := [{| role := User; content := JStr (str "one") |}];
                        input := []; loading := true |}, request_body (str "one")))
    by reflexivity.
  assert (H2 : handleSend_request
                 (setInput (str "two")
                    {| currentChat := [{| role := User; content := JStr (str "one") |}];
                       input := []; loading := true |}) =
               Some ({| currentChat := [{| role := User; content := JStr (str "one") |};
                                        {| role := User; content := JStr (str "two") |}];
                        input := []; loading := true |}, request_body (str "two")))
    by reflexivity.
  do 4 eexists. split; [exact H1|]. split; [exact H2|].
  destruct (@two_questions_in_flight _ _ _ _ _ _ JNull JNull H1 H2) as (Ha & Hb & _).
  split; [exact Ha|exact Hb].
Defined.

(** ** The normaliser: the whole-response fence *)

(** X15: the branch that fences the whole response is never taken.  A staged
    text without fence has no code-like line, so it holds none of the hints
    the branch counts: for every input the result is the staged text. *)
Theorem whole_response_fence_unreachable content :
  fallback_applies (staged content) = false
  /\ normalizeAIContent content = staged content
  /\ (test no_flags re_fence (staged content) = true
      \/ match_count no_flags re_hint (staged content) = O).
Proof.
  split; [apply fallback_never_applies|]. split; [apply normalize_staged|].
  destruct (test no_flags re_fence (staged content)) eqn:E; [now left|right].
  apply match_count_zero. unfold staged in *. now apply staged_no_hint.
Qed.

(** ** The normaliser: the language of a block *)

(** A line of a joined text starts the text or follows a line feed. *)
Lemma join_in_split l ls :
  In l ls ->
  exists pre post,
    join nl ls = pre ++ l ++ post /\ (pre = [] \/ exists p, pre = p ++ [LF]).
Proof.
  induction ls as [|l0 ls IH]; intros Hin; [contradiction|].
  destruct ls as [|l1 ls].
  - destruct Hin as [->|[]]. exists [], []. cbn. rewrite app_nil_r. auto.
  - rewrite join_cons_nl by discriminate. destruct Hin as [->|Hin].
    + exists [], (LF :: join nl (l1 :: ls)). auto.
    + destruct (IH Hin) as (pre & post & E & Hpre). rewrite E.
      exists (l0 ++ LF :: pre), post. split.
      * rewrite <- app_assoc. reflexivity.
      * right. destruct Hpre as [->|[p ->]].
        -- exists l0. reflexivity.
        -- exists (l0 ++ LF :: p). rewrite <- app_assoc. reflexivity.
Qed.

Lemma starts_flags fl pat : forall s,
  ignoreCase fl = false -> starts fl pat s = starts no_flags pat s.
Proof.
  intros s Hfl. revert s. induction pat as [|c pat IH]; intros [|d s]; try reflexivity.
  cbn [starts]. rewrite IH. unfold char_match. now rewrite Hfl.
Qed.

Lemma bash_tokens_solid b c a :
  is_space c = true ->
  matches_at flag_m
    (alts [lit (str "g++"); lit (str "./"); seqs [lit (str "bash"); WordB]])
    b (c :: a) = false.
Proof.
  intros Hc. cbn [alts seqs]. rewrite !matches_at_alt, !matches_at_lit.
  unfold matches_at. cbn [rmatch]. rewrite rmatch_lit.
  rewrite !(@starts_flags flag_m) by reflexivity.
  rewrite !starts_space_head by (reflexivity || assumption). reflexivity.
Qed.

Lemma ltrim_starts tok line :
  solid tok = true -> starts_with tok (ltrim line) = true -> ltrim line <> [].
Proof.
  intros Htok H E. rewrite E in H. destruct tok; discriminate.
Qed.

(** X16: the bash rule looks at every line: a block on which the cpp rule
    does not match and one line of which, the first or not, starts with [g++]
    or [./] after optional white space is tagged [bash]. *)
Theorem detectLang_bash_any_line block l :
  In l block ->
  test no_flags re_cpp (join nl block) = false ->
  begins_after_space (str "g++") l || begins_after_space (str "./") l = true ->
  detectLang block = Some (str "bash").
Proof.
  intros Hin Hcpp Htok. unfold detectLang. rewrite Hcpp.
  enough (E : test flag_m re_bash (join nl block) = true) by now rewrite E.
  destruct (join_in_split _ _ Hin) as (pre & post & -> & Hpre).
  rewrite test_any. apply any_pos_at. rewrite app_nil_r.
  unfold re_bash. cbn [seqs].
  assert (Hbol : at_bol flag_m (State (rev pre) (l ++ post)) = true).
  { destruct Hpre as [->|[p ->]]; [reflexivity|].
    rewrite rev_app_distr. reflexivity. }
  unfold matches_at. cbn [rmatch]. rewrite Hbol.
  change (matches_at flag_m
            (Seq (Rep 0 is_space)
               (alts [lit (str "g++"); lit (str "./"); seqs [lit (str "bash"); WordB]]))
            (rev pre) (l ++ post) = true).
  destruct (@skip_space_matches flag_m
              (alts [lit (str "g++"); lit (str "./"); seqs [lit (str "bash"); WordB]])
              bash_tokens_solid (rev pre) (l ++ post)) as [b' ->].
  cbn [alts]. rewrite !matches_at_alt, !matches_at_lit.
  rewrite !(@starts_flags flag_m) by reflexivity.
  unfold begins_after_space, starts_with in Htok.
  apply orb_true_iff in Htok. destruct Htok as [H|H];
    rewrite ltrim_app by (now apply (ltrim_starts _ _ eq_refl H) || now apply ltrim_starts in H);
    rewrite (starts_app _ _ _ post H); rewrite ?orb_true_r; reflexivity.
Qed.

Lemma detectLang_bash_any_line_witness :
  detectLang [str "Build and run it"; str "  ./run.sh"] = Some (str "bash").
Proof.
  apply (@detectLang_bash_any_line _ (str "  ./run.sh")).
  - right; left; reflexivity.
  - vm_compute; reflexivity.
  - vm_compute; reflexivity.
Defined.

(** X17: an arrow anywhere in a block gives the tag [ts], unless the cpp rule
    or the bash rule matches first. *)
Theorem detectLang_arrow block :
  test no_flags re_cpp (join nl block) = false ->
  test flag_m re_bash (join nl block) = false ->
  contains (str "=>") (join nl block) = true ->
  detectLang block = Some (str "ts").
Proof.
  intros Hcpp Hbash Harrow. unfold detectLang. rewrite Hcpp, Hbash.
  unfold re_ts. cbn [alts]. rewrite !test_alt, test_lit, Harrow.
  now rewrite !orb_true_r.
Qed.

Lemma detectLang_arrow_witness :
  detectLang [str "const f = (x) => {"; str "  return x;"; str "}"] = Some (str "ts").
Proof. apply detectLang_arrow; vm_compute; reflexivity. Defined.

Lemma join_head l rest : exists suffix, join nl (l :: rest) = l ++ suffix.
Proof.
  destruct rest as [|l' rest].
  - exists []. cbn. now rewrite app_nil_r.
  - rewrite join_cons_nl by discriminate. eauto.
Qed.

Lemma keyword_then_space kw c x b :
  is_space c = true ->
  matches_at no_flags (Seq (lit kw) (Rep 1 is_space)) b (kw ++ c :: x) = true.
Proof.
  intros Hc. unfold matches_at. cbn [rmatch]. rewrite rmatch_lit.
  fold (starts_with kw (kw ++ c :: x)). rewrite starts_self.
  cbn [rmatch before after].
  rewrite skipn_app, skipn_all, Nat.sub_diag. cbn [skipn app rep_class Nat.pred].
  rewrite Hc.
  match goal with
  | |- is_some (match rep_class is_space 0 ?b' x Some with _ => _ end) = true =>
      pose proof (rep_class_zero_some is_space x b') as H;
      destruct (rep_class is_space 0 b' x Some); [reflexivity|discriminate]
  end.
Qed.

Lemma keyword_solid kw b c a :
  solid kw = true -> is_space c = true ->
  matches_at no_flags (Seq (lit kw) (Rep 1 is_space)) b (c :: a) = false.
Proof.
  intros Hkw Hc. unfold matches_at. cbn [rmatch]. rewrite rmatch_lit.
  now rewrite starts_space_head.
Qed.

(** X18: rule 3 holds at the start of the blob: a block on which neither the
    cpp rule nor the bash rule matches and whose first line starts, after
    optional white space, with [import] or [export] and a white space is
    tagged [ts]. *)
Theorem detectLang_import_first_line l rest kw c t :
  kw = str "import" \/ kw = str "export" ->
  ltrim l = kw ++ c :: t -> is_space c = true ->
  test no_flags re_cpp (join nl (l :: rest)) = false ->
  test flag_m re_bash (join nl (l :: rest)) = false ->
  detectLang (l :: rest) = Some (str "ts").
Proof.
  intros Hkw Hl Hc Hcpp Hbash. unfold detectLang. rewrite Hcpp, Hbash.
  enough (E : test no_flags re_ts (join nl (l :: rest)) = true) by now rewrite E.
  destruct (join_head l rest) as [suffix ->].
  assert (Hsolid : solid kw = true) by (destruct Hkw as [->| ->]; reflexivity).
  assert (Hm : matches_at no_flags
                 (Seq (Rep 0 is_space) (Seq (lit kw) (Rep 1 is_space)))
                 [] (l ++ suffix) = true).
  { destruct (@skip_space_matches no_flags (Seq (lit kw) (Rep 1 is_space)))
      with (b := @nil char) (s := l ++ suffix) as [b' ->].
    - intros b c0 a H0. now apply keyword_solid.
    - rewrite ltrim_app by (rewrite Hl; now destruct kw).
      rewrite Hl, <- app_assoc. cbn [app]. now apply keyword_then_space. }
  unfold re_ts. cbn [alts seqs]. rewrite !test_alt, !test_bol by reflexivity.
  destruct Hkw as [->| ->]; rewrite Hm; rewrite ?orb_true_r; reflexivity.
Qed.

Lemma detectLang_import_first_line_witness :
  detectLang [str "import x from 'y';"; str "const a = 1;"] = Some (str "ts").
Proof.
  apply (@detectLang_import_first_line _ _ (str "import") 32 (str "x from 'y';")).
  - now left.
  - reflexivity.
  - reflexivity.
  - vm_compute; reflexivity.
  - vm_compute; reflexivity.
Defined.

(** ** The normaliser: lines that start with a hash *)

Lemma in_contents_all l ps :
  In l (contents_all ps) -> exists p, In p ps /\ In l (contents p).
Proof.
  unfold contents_all. rewrite in_flat_map. auto.
Qed.

Lemma hash_line_code line :
  begins_after_space (str "#") line = true -> isCodeLine line = true.
Proof.
  intros H. rewrite isCodeLine_spec. unfold spec_code_like.
  apply andb_true_iff. split.
  - unfold nonempty_after_trim, trim. unfold begins_after_space in H.
    destruct (ltrim line) as [|c t] eqn:E; [discriminate|].
    cbn [starts_with starts str] in H. unfold starts_with in H. cbn [starts] in H.
    apply andb_true_iff in H. destruct H as [H _].
    unfold char_match in H; cbn [ignoreCase no_flags] in H. apply N.eqb_eq in H.
    subst c. rewrite rtrim_cons by reflexivity. reflexivity.
  - unfold code_signal. rewrite H. now rewrite !orb_true_r.
Qed.

Lemma emit_all_app ps qs : emit_all (ps ++ qs) = emit_all ps ++ emit_all qs.
Proof. unfold emit_all. apply flat_map_app. Qed.

(** X19: a line whose first character after optional white space is a hash,
    a markdown heading for one, is code-like, and so every such line of the
    cleaned text is, in the output, between an opening fence line and the
    closing fence line of one block. *)
Theorem hash_lines_are_fenced content l :
  In l (cleanedLines content) ->
  begins_after_space (str "#") l = true ->
  isCodeLine l = true
  /\ exists pre block post,
       split LF (normalizeAIContent content) =
       pre ++ fence_open block :: block ++ fence :: post
       /\ In l block.
Proof.
  intros Hin Hhash. pose proof (hash_line_code _ Hhash) as Hcode.
  split; [exact Hcode|].
  rewrite <- (pieces_contents (cleanedLines content)) in Hin.
  apply in_contents_all in Hin. destruct Hin as (p & Hp & Hl).
  pose proof (pieces_ok (cleanedLines content)) as Hok.
  rewrite Forall_forall in Hok. specialize (Hok p Hp).
  destruct p as [l0|block].
  - destruct Hl as [->|[]]. cbn in Hok. congruence.
  - apply in_split in Hp. destruct Hp as (ps1 & ps2 & Eps).
    exists (emit_all ps1), block, (emit_all ps2). split; [|exact Hl].
    rewrite normalize_lines, group_lines_pieces, Eps.
    change (Code block :: ps2) with ([Code block] ++ ps2).
    rewrite !emit_all_app. unfold emit_all at 2. cbn [flat_map emit].
    rewrite app_nil_r. cbn [app]. rewrite <- app_assoc. cbn [app].
    destruct (emit_all ps1); reflexivity.
Qed.

Lemma hash_lines_are_fenced_witness :
  let content := unlines [str "# Results"; str "All good."] in
  isCodeLine (str "# Results") = true
  /\ exists pre block post,
       split LF (normalizeAIContent content) =
       pre ++ fence_open block :: block ++ fence :: post
       /\ In (str "# Results") block.
Proof.
  cbv zeta. apply hash_lines_are_fenced.
  - vm_compute. left; reflexivity.
  - vm_compute; reflexivity.
Defined.

(** ** The normaliser: the artifact stripper *)

Lemma rep_class_split p k z : forall a min b,
  rep_class p min b a k = Some z ->
  exists pre post,
    a = pre ++ post /\ forallb p pre = true
    /\ k (State (rev pre ++ b) post) = Some z.
Proof.
  induction a as [|c a IH]; intros min b H; simpl in H.
  - destruct min; [|discriminate]. exists [], []. auto.
  - assert (Hstop : match min with O => k (State b (c :: a)) | S _ => None end = Some z ->
                    exists pre post,
                      c :: a = pre ++ post /\ forallb p pre = true
                      /\ k (State (rev pre ++ b) post) = Some z).
    { destruct min; [|discriminate]. intros Hk. exists [], (c :: a). auto. }
    destruct (p c) eqn:Hc; [|now apply Hstop].
    destruct (rep_class p (Nat.pred min) (c :: b) a k) eqn:E; [|now apply Hstop].
    injection H as ->. apply IH in E. destruct E as (pre & post & -> & Hpre & Hk).
    exists (c :: pre), post. cbn [app forallb rev]. rewrite Hc, Hpre, <- app_assoc.
    auto.
Qed.

(** What a match of the badge tail covers: white space, the badge, and
    characters that are no line terminators, up to the end. *)
Lemma badge_tail_shape b a z :
  rmatch flag_i re_badge_tail (State b a) Some = Some z ->
  exists ws word dots,
    a = ws ++ word ++ dots /\ word <> [] /\ forallb is_word word = true
    /\ forallb is_dot dots = true.
Proof.
  unfold re_badge_tail. cbn [seqs rmatch before after]. intros H.
  apply rep_class_split in H. destruct H as (ws & a1 & -> & _ & H).
  rewrite rmatch_lit in H.
  destruct (starts flag_i (str "Copyhljs") a1) eqn:Hs; [|discriminate].
  cbn [rmatch before after] in H.
  destruct (at_wordb _); [|discriminate].
  apply rep_class_split in H. destruct H as (dots & a3 & Ea & Hdots & H).
  destruct (at_eol flag_i _) eqn:He; [|discriminate].
  apply (at_eol_end flag_i) in He; [|reflexivity]. cbn [after] in He. subst a3.
  rewrite app_nil_r in Ea.
  exists ws, (firstn (length (str "Copyhljs")) a1), dots.
  split; [now rewrite <- Ea, firstn_skipn|]. split.
  - apply starts_length in Hs. destruct a1; [simpl in Hs; lia|discriminate].
  - split; [now apply starts_letters|exact Hdots].
Qed.

Lemma terminator_space c : is_line_terminator c = true -> is_space c = true.
Proof. intros H. char_facts. Qed.

Lemma last_of_app (p q : jsstring) c :
  p ++ [c] = q -> q <> [] -> exists q', q = q' ++ [c].
Proof.
  intros E Hne. destruct (exists_last Hne) as (q' & e & ->).
  apply app_inj_tail in E. destruct E as [_ ->]. eauto.
Qed.

(** X20: on a line that ends with a line terminator, as every line of a text
    with CR LF line ends does, the badge pattern finds nothing: [.] stops at
    the terminator and [$] wants the end, so a mid-line badge stays. *)
Theorem strip_badge_terminated p c :
  is_line_terminator c = true -> strip_badge (p ++ [c]) = p ++ [c].
Proof.
  intros Hc. unfold strip_badge, replace, exec.
  destruct (exec_from flag_i re_badge_tail [] (p ++ [c])) as [[x y]|] eqn:E;
    [exfalso|reflexivity].
  apply exec_from_some in E. destruct E as (pre & post & Epost & -> & H).
  apply badge_tail_shape in H.
  destruct H as (ws & word & dots & -> & Hne & Hword & Hdots).
  destruct dots as [|d dots].
  - rewrite app_nil_r, !app_assoc in Epost.
    apply last_of_app in Epost; [|destruct word; [congruence|now destruct (pre ++ ws)]].
    destruct Epost as [q Eq].
    destruct (exists_last Hne) as (w' & e & ->).
    rewrite app_assoc in Eq. apply app_inj_tail in Eq. destruct Eq as [_ ->].
    rewrite forallb_app in Hword. apply andb_true_iff in Hword.
    destruct Hword as [_ Hword]. cbn in Hword. rewrite andb_true_r in Hword.
    apply terminator_space, space_not_word in Hc. congruence.
  - assert (Hd : d :: dots <> []) by discriminate.
    destruct (exists_last Hd) as (d' & e & Ed). rewrite Ed in *.
    rewrite !app_assoc in Epost. apply app_inj_tail in Epost.
    destruct Epost as [_ <-].
    rewrite forallb_app in Hdots. apply andb_true_iff in Hdots.
    destruct Hdots as [_ Hdots]. cbn in Hdots. rewrite andb_true_r in Hdots.
    unfold is_dot in Hdots. rewrite Hc in Hdots. discriminate.
Qed.

Lemma strip_badge_terminated_witness :
  strip_badge (str "x = 1; Copyhljs cpp" ++ [13]) = str "x = 1; Copyhljs cpp" ++ [13]
  /\ strip_badge (str "x = 1; Copyhljs cpp") = str "x = 1;".
Proof.
  split; [|vm_compute; reflexivity].
  apply strip_badge_terminated. reflexivity.
Defined.


